(** * circulis: a deque-backed container and its operations

    A shallow embedding of [library/circulis.py] (class [circulis], built by
    the metaclass [metaclarion] of [library/meta.py]) together with the
    properties of its bulk mutation, aggregation, transform, set-algebra and
    randomisation operations.

    Conventions of the embedding:
    - a Python object stored in the container is a [value];
    - the instance is the record [circulis] (its [circulist] deque, left end
      first, and its [name]); the deque is unbounded (no [maxlen]);
    - a method that mutates the instance is a function from the instance to
      an outcome and the instance it leaves behind, so that what a raised
      exception leaves in the deque stays visible;
    - floats are left out of [value]; the one place where the source needs a
      float ([percentile]) uses the kernel's binary64 numbers. *)

From Stdlib Require Import ZArith Lia Bool.
From Stdlib Require PrimFloat FloatOps SpecFloat Uint63.
From stdpp Require Import base numbers list strings.

Set Warnings "-register-all".

(** ** Python values and exceptions *)

Module Py.

(** The exceptions the modelled code raises.  The specification calls
    [TypeError] TypeMismatch, [ValueError] InvalidOperation and [IndexError]
    IndexOutOfRange. *)
Inductive exn : Type :=
| TypeError
| ValueError
| IndexError
| RecursionError
| NotImplementedError.

Inductive value : Type :=
| VNone
| VBool (b : bool)
| VInt (z : Z)
| VStr (s : string)
| VList (l : list value)
| VTuple (l : list value).

(** Induction over values that also reaches the elements of lists and
    tuples. *)
Fixpoint value_nested_ind (P : value → Prop)
    (HNone : P VNone) (HBool : ∀ b, P (VBool b)) (HInt : ∀ z, P (VInt z))
    (HStr : ∀ s, P (VStr s))
    (HList : ∀ l, Forall P l → P (VList l))
    (HTuple : ∀ l, Forall P l → P (VTuple l)) (v : value) {struct v} : P v :=
  let rec := value_nested_ind P HNone HBool HInt HStr HList HTuple in
  let fix all (l : list value) : Forall P l :=
    match l with
    | [] => List.Forall_nil P
    | x :: l' => @List.Forall_cons _ P x l' (rec x) (all l')
    end in
  match v with
  | VNone => HNone
  | VBool b => HBool b
  | VInt z => HInt z
  | VStr s => HStr s
  | VList l => HList l (all l)
  | VTuple l => HTuple l (all l)
  end.

(** [isinstance(v, int)]: [bool] is a subclass of [int], [True] is 1. *)
Definition as_int (v : value) : option Z :=
  match v with
  | VBool b => Some (Z.b2z b)
  | VInt z => Some z
  | _ => None
  end.

Definition is_none (v : value) : bool :=
  match v with VNone => true | _ => false end.

Definition is_str (v : value) : bool :=
  match v with VStr _ => true | _ => false end.

(** [isinstance(v, Iterable)] *)
Definition is_iterable (v : value) : bool :=
  match v with VStr _ | VList _ | VTuple _ => true | _ => false end.

(** [isinstance(v, Hashable)]: the class of [v] has a [__hash__]; a tuple
    passes whatever it holds. *)
Definition is_Hashable (v : value) : bool :=
  match v with VList _ => false | _ => true end.

(** [hash(v)] succeeds: a tuple hashes its elements. *)
Fixpoint py_hashable (v : value) : bool :=
  match v with
  | VList _ => false
  | VTuple l => forallb py_hashable l
  | _ => true
  end.

(** Two sequences of the same length with pairwise equal elements. *)
Definition all2 {A} (eqb : A → A → bool) : list A → list A → bool :=
  fix go l m :=
    match l, m with
    | [], [] => true
    | x :: l', y :: m' => eqb x y && go l' m'
    | _, _ => false
    end.

(** [a == b] *)
Fixpoint py_eqb (a b : value) {struct a} : bool :=
  match a, b with
  | VNone, VNone => true
  | VBool x, VBool y => Z.eqb (Z.b2z x) (Z.b2z y)
  | VBool x, VInt y => Z.eqb (Z.b2z x) y
  | VInt x, VBool y => Z.eqb x (Z.b2z y)
  | VInt x, VInt y => Z.eqb x y
  | VStr s, VStr t => String.eqb s t
  | VList l, VList m => all2 py_eqb l m
  | VTuple l, VTuple m => all2 py_eqb l m
  | _, _ => false
  end.

(** What [for x in v] runs over; [None] when [v] is not iterable.  A string
    yields its characters, each a string of length one. *)
Fixpoint chars (s : string) : list value :=
  match s with
  | EmptyString => []
  | String a s' => VStr (String a EmptyString) :: chars s'
  end.

Definition py_iter (v : value) : option (list value) :=
  match v with
  | VStr s => Some (chars s)
  | VList l | VTuple l => Some l
  | _ => None
  end.

(** [bool(v)] *)
Definition py_truth (v : value) : bool :=
  match v with
  | VNone => false
  | VBool b => b
  | VInt z => negb (z =? 0)%Z
  | VStr s => negb (String.eqb s EmptyString)
  | VList l | VTuple l => match l with [] => false | _ => true end
  end.

(** [a + b] *)
Definition py_add (a b : value) : exn + value :=
  match a, b with
  | VStr s, VStr t => inr (VStr (s +:+ t))
  | VList l, VList m => inr (VList (l ++ m))
  | VTuple l, VTuple m => inr (VTuple (l ++ m))
  | _, _ =>
      match as_int a, as_int b with
      | Some x, Some y => inr (VInt (x + y))
      | _, _ => inl TypeError
      end
  end.

(** [v < 0] *)
Definition py_lt0 (v : value) : exn + bool :=
  match as_int v with
  | Some z => inr (z <? 0)%Z
  | None => inl TypeError
  end.

(** [range(start, stop, step)] as the list it runs over. *)
Definition range_len (start stop step : Z) : nat :=
  Z.to_nat
    (if (0 <? step)%Z
     then (if (start <? stop)%Z then (stop - start - 1) / step + 1 else 0)
     else (if (stop <? start)%Z then (start - stop - 1) / (- step) + 1 else 0))%Z.

Definition range_elems (start step : Z) (n : nat) : list Z :=
  (λ k : nat, start + Z.of_nat k * step)%Z <$> seq 0 n.

Definition py_range (start stop step : Z) : exn + list Z :=
  if (step =? 0)%Z then inl ValueError
  else inr (range_elems start step (range_len start stop step)).

End Py.
Import Py.

(** ** The instance and its methods *)

Record circulis : Type := Circulis {
  circulist : list value;
  name : string;
}.

Definition anonymous : string := "Anonymous Circulist".

(** [circulis(iterable)] with a list argument and no [name]. *)
Definition new_circulis (iterable : list value) : circulis :=
  {| circulist := iterable; name := anonymous |}.

(** A container of integers, for examples. *)
Definition ints (l : list Z) : list value := VInt <$> l.

Definition set_circulist (self : circulis) (d : list value) : circulis :=
  {| circulist := d; name := name self |}.

(** A method: the outcome (an exception or a result) and the instance
    afterwards. *)
Definition method (A : Type) : Type := circulis → (exn + A) * circulis.

Definition ret {A} (a : A) : method A := λ self, (inr a, self).
Definition throw {A} (e : exn) : method A := λ self, (inl e, self).
Definition bind {A B} (m : method A) (k : A → method B) : method B :=
  λ self,
    match m self with
    | (inl e, self') => (inl e, self')
    | (inr a, self') => k a self'
    end.

Notation "'do' x <- m ; k" := (bind m (λ x, k))
  (at level 10, x name, m at level 100, k at level 200).

(** [_is_empty], stored in the class as [encrypt_is_empty] by
    [metaclarion.__new__]. *)
Definition encrypt_is_empty (self : circulis) : bool :=
  match circulist self with [] => true | _ => false end.

(** *** Sequence core *)

Module SequenceCore.

(** [deque.pop()] and [deque.popleft()] *)
Definition deque_pop : method value := λ self,
  match reverse (circulist self) with
  | [] => (inl IndexError, self)
  | x :: front => (inr x, set_circulist self (reverse front))
  end.

Definition deque_popleft : method value := λ self,
  match circulist self with
  | [] => (inl IndexError, self)
  | x :: rest => (inr x, set_circulist self rest)
  end.

Definition pop (direction : string) : method value :=
  if String.eqb direction "left" then deque_pop
  else if String.eqb direction "right" then deque_popleft
  else throw ValueError.

End SequenceCore.

(** *** Bulk mutation engine *)

Module BulkMutation.

(** The position a deque index [i] stands for: a negative index counts from
    the right end; [None] when it falls outside the deque. *)
Definition deque_position (len : nat) (i : Z) : option nat :=
  let j := (if i <? 0 then i + Z.of_nat len else i)%Z in
  if ((0 <=? j) && (j <? Z.of_nat len))%Z then Some (Z.to_nat j) else None.

(** [del self.circulist[i]] *)
Definition deque_delitem (i : Z) : method unit := λ self,
  match deque_position (length (circulist self)) i with
  | Some j => (inr (), set_circulist self (delete j (circulist self)))
  | None => (inl IndexError, self)
  end.

(** [self.circulist.insert(i, item)]: an index past either end is clamped
    to that end. *)
Definition deque_insert (i : Z) (item : value) : method unit := λ self,
  let d := circulist self in
  let n := Z.of_nat (length d) in
  let j := Z.to_nat (if i <? 0 then Z.max 0 (i + n) else Z.min i n)%Z in
  (inr (), set_circulist self (take j d ++ item :: drop j d)).

(** [start < 0 or stop < 0 or step < 0], evaluated left to right and
    stopping at the first true comparison. *)
Definition any_negative (start stop step : value) : exn + bool :=
  match py_lt0 start with
  | inl e => inl e
  | inr true => inr true
  | inr false =>
      match py_lt0 stop with
      | inl e => inl e
      | inr true => inr true
      | inr false => py_lt0 step
      end
  end.

(** The deletion loop of [remove]: [index_fixer] counts the deletions made
    so far. *)
Fixpoint remove_loop (indices : list Z) (index_fixer : Z) : method unit :=
  match indices with
  | [] => ret ()
  | index :: rest =>
      do _ <- deque_delitem (index - index_fixer);
      remove_loop rest (index_fixer + 1)
  end.

(** [remove(start, stop, step)]; [stop] is [VNone] when the caller leaves it
    out and [step] is [VInt 1] by default.  The warning about negative
    arguments only logs, but its comparisons raise on a non-number. *)
Definition remove (start stop step : value) : method unit := λ self,
  if encrypt_is_empty self then (inl ValueError, self)
  else
    let stop := if is_none stop then start else stop in
    match any_negative start stop step with
    | inl e => (inl e, self)
    | inr _ =>
        match as_int start, as_int stop, as_int step with
        | None, _, _ => (inl TypeError, self)
        | _, None, _ => (inl TypeError, self)
        | _, _, None => (inl TypeError, self)
        | Some start, Some stop, Some step =>
            let len := Z.of_nat (length (circulist self)) in
            if ((len <=? start) || (len <=? stop) || (len <=? step))%Z
            then (inl IndexError, self)
            else
              match py_range start (stop + 1) step with
              | inl e => (inl e, self)
              | inr indices => remove_loop indices 0 self
              end
        end
    end.

Fixpoint insert_loop (indices : list Z) (item : value) : method unit :=
  match indices with
  | [] => ret ()
  | index :: rest =>
      do _ <- deque_insert index item;
      insert_loop rest item
  end.

(** [insert(item, start, stop, step)] *)
Definition insert (item start stop step : value) : method unit := λ self,
  if encrypt_is_empty self then (inl ValueError, self)
  else
    let stop := if is_none stop then start else stop in
    match as_int start, as_int stop, as_int step with
    | Some start, Some stop, Some step =>
        match py_range start (stop + 1) step with
        | inl e => (inl e, self)
        | inr indices => insert_loop indices item self
        end
    | _, _, _ => (inl TypeError, self)
    end.

(** What the description of [remove] promises, in its own words: the
    elements at the scheduled positions [start, start+step, ..., stop] are
    the ones that go. *)
Definition scheduled (start stop step : Z) (i : Z) : bool :=
  ((start <=? i) && (i <=? stop) && ((i - start) mod step =? 0))%Z.

Fixpoint drop_positions (sched : Z → bool) (i : Z) (d : list value) : list value :=
  match d with
  | [] => []
  | x :: d' =>
      if sched i then drop_positions sched (i + 1) d'
      else x :: drop_positions sched (i + 1) d'
  end.

(** An integer argument below zero. *)
Definition is_negative (v : value) : bool :=
  match as_int v with Some z => (z <? 0)%Z | None => false end.

(** [remove] returns normally and leaves the deque without its scheduled
    positions. *)
Definition removes_scheduled (self : circulis) (start stop step : Z) : Prop :=
  remove (VInt start) (VInt stop) (VInt step) self
  = (inr (),
     set_circulist self
       (drop_positions (scheduled start stop step) 0 (circulist self))).

End BulkMutation.

(** *** Aggregation engine *)

Module Aggregation.

(** [isinstance(v, (int, float))] on the values of the model. *)
Definition is_number (v : value) : bool :=
  match as_int v with Some _ => true | None => false end.

(** The builtin [sum(iterable)], which adds up from [acc]. *)
Fixpoint builtin_sum (l : list value) (acc : value) : exn + value :=
  match l with
  | [] => inr acc
  | x :: l' =>
      match py_add acc x with
      | inl e => inl e
      | inr acc' => builtin_sum l' acc'
      end
  end.

(** The loop of the ["coerce"] branch: [except TypeError: pass]. *)
Fixpoint sum_coerce (l : list value) (accumulate : value) : exn + value :=
  match l with
  | [] => inr accumulate
  | items :: l' =>
      match py_add accumulate items with
      | inr accumulate' => sum_coerce l' accumulate'
      | inl TypeError => sum_coerce l' accumulate
      | inl e => inl e
      end
  end.

(** The loop of the last branch: [except TypeError: return accumulate]. *)
Fixpoint sum_terminate (l : list value) (accumulate : value) : exn + value :=
  match l with
  | [] => inr accumulate
  | items :: l' =>
      match py_add accumulate items with
      | inr accumulate' => sum_terminate l' accumulate'
      | inl TypeError => inr accumulate
      | inl e => inl e
      end
  end.

(** [sum(start, error=...)].  In the ["raise"] branch the handler turns the
    [TypeError] of the builtin [sum] into a [ValueError]. *)
Definition sum (start : value) (error : string) (self : circulis) : exn + value :=
  if encrypt_is_empty self then inr (VInt 0)
  else if negb (is_number start) then inl TypeError
  else if negb (bool_decide (error ∈ ["raise"; "coerce"; "terminate"])) then inl ValueError
  else if String.eqb error "raise" then
    match builtin_sum (circulist self) (VInt 0) with
    | inr total =>
        match py_add start total with
        | inl TypeError => inl ValueError
        | r => r
        end
    | inl TypeError => inl ValueError
    | inl e => inl e
    end
  else if String.eqb error "coerce" then sum_coerce (circulist self) start
  else sum_terminate (circulist self) start.

(** The numbers among the elements, and the numbers before the first
    element that is not one. *)
Definition numbers (l : list value) : list Z := omap as_int l.

Fixpoint leading_numbers (l : list value) : list Z :=
  match l with
  | [] => []
  | x :: l' =>
      match as_int x with
      | Some z => z :: leading_numbers l'
      | None => []
      end
  end.

Definition total (l : list Z) : Z := foldr Z.add 0%Z l.

(** What the guard of an [if] can be handed: the value a call returned, or
    a bound method that has not been called. *)
Inductive condition : Type :=
| Returned (v : value)
| BoundMethod (m : circulis → bool) (self : circulis).

(** The truth value the [if] takes from it.  The method type defines
    neither [__bool__] nor [__len__], so a bound method is true whatever it
    would return. *)
Definition truth (c : condition) : bool :=
  match c with
  | Returned v => py_truth v
  | BoundMethod _ _ => true
  end.

(** [Counter(d)[item]]: the keys of a [Counter] are hashed. *)
Definition Counter_getitem (d : list value) (item : value) : exn + Z :=
  if forallb py_hashable d && py_hashable item
  then inr (Z.of_nat (length (filter (λ x, py_eqb x item = true) d)))
  else inl TypeError.

(** [count(item)]: the guard tests [self.encrypt_is_empty], not its result. *)
Definition count (item : value) (self : circulis) : exn + Z :=
  if truth (BoundMethod encrypt_is_empty self) then inr 0%Z
  else Counter_getitem (circulist self) item.

End Aggregation.

(** *** The percentile search *)

Module Percentile.
Import PrimFloat.

(** What [percentile] returns: an element of the container, or the float
    0.01 that stands in for a zero. *)
Inductive number : Type :=
| NInt (z : Z)
| NFloat (f : float).

(** The floats 0.99 and 0.01 as Python reads them. *)
Definition float_0_99 : float := 0x1.fae147ae147aep-1%float.
Definition float_0_01 : float := 0x1.47ae147ae147bp-7%float.
Definition float_0_25 : float := 0.25%float.
Definition float_0_5 : float := 0.5%float.

(** [0 < percentage < 0.99] *)
Definition valid_percentage (percentage : float) : bool :=
  ltb 0 percentage && ltb percentage float_0_99.

(** [float(n)] for a length [n], and [math.ceil(x)], which has no value on
    an infinity or a NaN. *)
Definition float_of_length (n : nat) : float :=
  of_uint63 (Uint63.of_Z (Z.of_nat n)).

Definition math_ceil (x : float) : option Z :=
  match FloatOps.Prim2SF x with
  | SpecFloat.S754_zero _ => Some 0%Z
  | SpecFloat.S754_finite sign m e =>
      let v := (if sign then Z.neg m else Z.pos m) in
      Some (if (0 <=? e)%Z then v * 2 ^ e else - ((- v) / 2 ^ (- e)))%Z
  | _ => None
  end.

(** [above] and [below], from [math.ceil(length * percentage) + 1]. *)
Definition required_counts (percentage : float) (len : nat) : option (Z * Z) :=
  match math_ceil (float_of_length len * percentage)%float with
  | Some c => Some (c + 1, Z.of_nat len - (c + 1))%Z
  | None => None
  end.

(** The part of [percentile_dictionary] that changes, and [complete]
    ([None] while it is [False]). *)
Record search : Type := Search {
  trough : Z;
  peak : Z;
  complete : option number;
}.

(** [x if x else 0.01] *)
Definition or_0_01 (x : Z) : number :=
  if (x =? 0)%Z then NFloat float_0_01 else NInt x.

Definition in_range (trough peak elements : Z) : bool :=
  ((trough <? elements) && (elements <? peak))%Z.

(** The [for] of [pioneer_obtain]: the first element strictly between
    [trough] and [peak], if there is one. *)
Definition pioneer_obtain (d : list Z) (st : search) : option Z :=
  List.find (in_range (trough st) (peak st)) d.

(** [max(self.circulist)] *)
Definition py_max (d : list Z) : exn + Z :=
  match d with
  | [] => inl ValueError
  | x :: d' => inr (foldl Z.max x d')
  end.

Definition aggregate_surplus (d : list Z) (pioneer : Z) : Z :=
  Z.of_nat (length (List.filter (λ elements, elements <=? pioneer)%Z d)).

Definition aggregate_shortage (d : list Z) (pioneer : Z) : Z :=
  Z.of_nat (length (List.filter (λ elements, pioneer <=? elements)%Z d)).

(** [comparison(pioneer)] *)
Definition comparison (d : list Z) (above below pioneer : Z) (st : search)
  : exn + search :=
  let surplus := aggregate_surplus d pioneer in
  let shortage := aggregate_shortage d pioneer in
  if ((above =? surplus) || (below =? shortage))%Z
  then inr (Search (trough st) (peak st) (Some (or_0_01 pioneer)))
  else
    match (above <? surplus)%Z, (below <? shortage)%Z with
    | true, true => inr (Search (trough st) (peak st) (Some (or_0_01 pioneer)))
    | true, false => inr (Search (trough st) pioneer (complete st))
    | false, true => inr (Search pioneer (peak st) (complete st))
    | false, false => inl NotImplementedError
    end.

(** [while not complete: ...; return complete], run for at most [fuel]
    rounds ([None] when they are used up).  When the generator finds no
    candidate its [else] sets [complete] to the maximum and the loop is
    left. *)
Fixpoint search_loop (fuel : nat) (d : list Z) (above below : Z) (st : search)
  : option (exn + number) :=
  match complete st with
  | Some result => Some (inr result)
  | None =>
      match fuel with
      | 0 => None
      | S fuel' =>
          match pioneer_obtain d st with
          | None =>
              match py_max d with
              | inl e => Some (inl e)
              | inr biggest => Some (inr (or_0_01 biggest))
              end
          | Some pioneer =>
              match comparison d above below pioneer st with
              | inl e => Some (inl e)
              | inr st' => search_loop fuel' d above below st'
              end
          end
      end
  end.

Definition sentinels : search := Search (-100000000) 100000000 None.


(** [percentile(percentage)] on a container of integers.  [math.ceil] has a
    value here, the product being finite; the model raises where it has
    none. *)
Definition percentile (percentage : float) (d : list Z) : option (exn + number) :=
  if negb (valid_percentage percentage) then Some (inl ValueError)
  else if bool_decide (length d ≤ 1) then Some (inl ValueError)
  else
    match required_counts percentage (length d) with
    | None => Some (inl ValueError)
    | Some (above, below) => search_loop (S (length d)) d above below sentinels
    end.




End Percentile.

(** *** Transform engine *)

Module Transform.

(** [list(d)[a:a+2]] for [0 <= a] *)
Definition slice2 (d : list value) (a : Z) : list value :=
  take 2 (drop (Z.to_nat a) d).

(** The [pair] property. *)
Definition pair : method (list value) := λ self,
  if encrypt_is_empty self then (inl ValueError, self)
  else
    let self' :=
      if (Z.of_nat (length (circulist self)) mod 2 =? 1)%Z
      then set_circulist self (circulist self ++ [VNone])
      else self in
    let d := circulist self' in
    (inr ((λ index, VTuple (slice2 d index))
            <$> range_elems 0 2 (range_len 0 (Z.of_nat (length d)) 2)),
     self').

(** [recursive_flatten], with the depth of Python calls still available:
    the interpreter raises [RecursionError] when it is used up.  The test
    sends an iterable that is not a string to [store_list] and recurses into
    everything else. *)
Fixpoint recursive_flatten (depth : nat) (list_object : value)
    (store_list : list value) : exn + list value :=
  match depth with
  | 0 => inl RecursionError
  | S depth' =>
      match py_iter list_object with
      | None => inl TypeError
      | Some elements =>
          (fix loop (elements : list value) (store_list : list value) :=
             match elements with
             | [] => inr store_list
             | items :: rest =>
                 if is_iterable items && negb (is_str items)
                 then loop rest (store_list ++ [items])
                 else
                   match recursive_flatten depth' items store_list with
                   | inl e => inl e
                   | inr store_list' => loop rest store_list'
                   end
             end) elements store_list
      end
  end.

(** [disentangle()], run with [depth] nested calls available.  The deque is
    iterated like a list. *)
Definition disentangle (depth : nat) : method unit := λ self,
  match recursive_flatten depth (VList (circulist self)) [] with
  | inl e => (inl e, self)
  | inr store_list => (inr (), set_circulist self store_list)
  end.

(** What the description of [disentangle] promises: the leaves of the
    nested iterables in order, strings kept whole. *)
Fixpoint flatten (v : value) : list value :=
  match v with
  | VList l | VTuple l => flat_map flatten l
  | _ => [v]
  end.

End Transform.

(** *** Ordering and randomisation *)

Module Randomization.

(** [self.circulist[i]] and [self.circulist[i] = v] for [i >= 0] *)
Definition deque_getitem (i : nat) : method value := λ self,
  match circulist self !! i with
  | Some v => (inr v, self)
  | None => (inl IndexError, self)
  end.

Definition deque_setitem (i : nat) (v : value) : method unit := λ self,
  if bool_decide (i < length (circulist self))
  then (inr (), set_circulist self (<[i := v]> (circulist self)))
  else (inl IndexError, self).

(** [d[i], d[j] = d[j], d[i]]: the right-hand side is read first, then the
    two targets are assigned from left to right. *)
Definition swap (i j : nat) : method unit :=
  do dj <- deque_getitem j;
  do di <- deque_getitem i;
  do _ <- deque_setitem i dj;
  deque_setitem j di.

(** [randint(a, b)] for [a <= b]: any of [a, ..., b], picked by the draw. *)
Definition randint (draw : nat) (a b : nat) : nat := a + draw mod S (b - a).

(** The loop of [shuffle]; [draws k] decides the [k]-th call of [randint],
    and each call adds one entry to [swapped_index]. *)
Fixpoint shuffle_loop (draws : nat → nat) (len : nat) (indices : list nat)
    (swapped_index : list nat) : method unit :=
  match indices with
  | [] => ret ()
  | index :: rest =>
      if bool_decide (index ∈ swapped_index)
      then shuffle_loop draws len rest swapped_index
      else
        let swap_index := randint (draws (length swapped_index)) index (len - 1) in
        do _ <- swap index swap_index;
        shuffle_loop draws len rest (swapped_index ++ [swap_index])
  end.

Definition shuffle (draws : nat → nat) : method unit := λ self,
  let len := length (circulist self) in
  if bool_decide (len = 0) then (inr (), self)
  else shuffle_loop draws len (seq 0 len) [] self.

End Randomization.

(** *** Set-algebra engine *)

Module SetAlgebra.

(** The right operand of an operator: a deque, another [circulis], or any
    other value. *)
Inductive operand : Type :=
| ODeque (d : list value)
| OCirculis (c : circulis)
| OValue (v : value).

(** [_list_check]: [isinstance(input_object, (deque, circulis, list, tuple))] *)
Definition encrypt_list_check (input_object : operand) : exn + unit :=
  match input_object with
  | ODeque _ | OCirculis _ | OValue (VList _) | OValue (VTuple _) => inr ()
  | OValue _ => inl TypeError
  end.

(** What iterating over a checked operand yields. *)
Definition elements (object : operand) : list value :=
  match object with
  | ODeque d => d
  | OCirculis c => circulist c
  | OValue v => default [] (py_iter v)
  end.

(** [_hashify]: a value whose class is hashable is returned as it is, any
    other iterable becomes the tuple of its canonical elements. *)
Fixpoint encrypt_hashify (object : value) : value :=
  match object with
  | VList l => VTuple (encrypt_hashify <$> l)
  | _ => object
  end.

(** A Python [set], as the list of its elements: no two are equal by [==].
    Python fixes no order for listing a set; the model lists it in the
    order of insertion, and what is stated about a set is stated up to
    order. *)
Definition set_contains (s : list value) (k : value) : bool :=
  existsb (py_eqb k) s.

(** Adding [k] hashes it. *)
Definition set_add (s : list value) (k : value) : exn + list value :=
  if py_hashable k then inr (if set_contains s k then s else s ++ [k])
  else inl TypeError.

Fixpoint set_add_all (s : list value) (keys : list value) : exn + list value :=
  match keys with
  | [] => inr s
  | k :: rest =>
      match set_add s k with
      | inl e => inl e
      | inr s' => set_add_all s' rest
      end
  end.

(** [_to_set]: [{self.encrypt_hashify(item) for item in object}] *)
Definition encrypt_to_set (object : list value) : exn + list value :=
  set_add_all [] (encrypt_hashify <$> object).

(** [first - second] *)
Definition set_difference (first second : list value) : list value :=
  filter (λ k, set_contains second k = false) first.

(** [self - other] *)
Definition __sub__ (self : circulis) (other : operand) : exn + circulis :=
  match encrypt_list_check other with
  | inl e => inl e
  | inr _ =>
      match encrypt_to_set (circulist self) with
      | inl e => inl e
      | inr first =>
          match encrypt_to_set (elements other) with
          | inl e => inl e
          | inr second => inr (new_circulis (set_difference first second))
          end
      end
  end.

(** No two elements are equal by [==]. *)
Fixpoint distinct (s : list value) : Prop :=
  match s with
  | [] => True
  | x :: s' => set_contains s' x = false ∧ distinct s'
  end.

End SetAlgebra.

(** *** More of the sequence core *)

Module SequenceOps.
Import SequenceCore BulkMutation.

(** [deque.rotate(n)]: [n] steps to the right, to the left when [n] is
    negative; the step count is taken modulo the length. *)
Definition deque_rotate (n : Z) (d : list value) : list value :=
  match d with
  | [] => []
  | _ =>
      let r := Z.to_nat (n mod Z.of_nat (length d)) in
      drop (length d - r) d ++ take (length d - r) d
  end.

(** [rotate(n)] *)
Definition rotate (n : value) : method unit := λ self,
  match as_int n with
  | None => (inl TypeError, self)
  | Some n => (inr (), set_circulist self (deque_rotate n (circulist self)))
  end.

(** [for _ in range(times): pop_one()] *)
Fixpoint repeat_pop (times : nat) (pop_one : method value) : method unit :=
  match times with
  | 0 => ret ()
  | S times' => do _ <- pop_one; repeat_pop times' pop_one
  end.

(** [curtail(amount, mode=...)] *)
Definition curtail (amount : value) (mode : string) : method unit := λ self,
  if encrypt_is_empty self then (inl ValueError, self)
  else
    match as_int amount with
    | None => (inl TypeError, self)
    | Some amount =>
        if (amount <=? 0)%Z then (inl ValueError, self)
        else if String.eqb mode "left"
        then repeat_pop (Z.to_nat amount) deque_popleft self
        else if String.eqb mode "right"
        then repeat_pop (Z.to_nat amount) deque_pop self
        else (inl ValueError, self)
    end.






(** [deque.remove(element)]: the first element equal to it goes; [None]
    stands for the [ValueError] of a deque that holds none. *)
Fixpoint deque_remove (element : value) (d : list value) : option (list value) :=
  match d with
  | [] => None
  | x :: d' =>
      if py_eqb x element then Some d'
      else match deque_remove element d' with
           | Some d'' => Some (x :: d'')
           | None => None
           end
  end.

(** [discard(element)] *)
Definition discard (element : value) : method unit := λ self,
  if bool_decide (length (circulist self) = 0) then (inl ValueError, self)
  else
    match deque_remove element (circulist self) with
    | Some d => (inr (), set_circulist self d)
    | None => (inl ValueError, self)
    end.

(** [value in self] *)
Definition __contains__ (self : circulis) (v : value) : bool :=
  existsb (λ x, py_eqb x v) (circulist self).

(** [self[index]], [self[index] = v] and [del self[index]] for an index that
    is no slice. *)
Definition __getitem__ (index : value) : method value := λ self,
  match as_int index with
  | None => (inl TypeError, self)
  | Some i =>
      match deque_position (length (circulist self)) i with
      | Some j =>
          match circulist self !! j with
          | Some v => (inr v, self)
          | None => (inl IndexError, self)
          end
      | None => (inl IndexError, self)
      end
  end.

Definition __setitem__ (index : value) (v : value) : method unit := λ self,
  match as_int index with
  | None => (inl TypeError, self)
  | Some i =>
      match deque_position (length (circulist self)) i with
      | Some j => (inr (), set_circulist self (<[j := v]> (circulist self)))
      | None => (inl IndexError, self)
      end
  end.


(** [reverse()] *)
Definition reverse_in_place : method unit := λ self,
  (inr (), set_circulist self (reverse (circulist self))).

(** The [median] property: the element at [len // 2]. *)
Definition median (self : circulis) : exn + value :=
  if encrypt_is_empty self then inl ValueError
  else
    match circulist self !! (length (circulist self) / 2) with
    | Some v => inr v
    | None => inl IndexError
    end.


(** [[func(items) for items in d]], for a [func] that may raise. *)
Fixpoint comprehension (func : value → exn + value) (d : list value)
  : exn + list value :=
  match d with
  | [] => inr []
  | items :: d' =>
      match func items with
      | inl e => inl e
      | inr y =>
          match comprehension func d' with
          | inl e => inl e
          | inr ys => inr (y :: ys)
          end
      end
  end.

(** [map(func)] *)
Definition map (func : value → exn + value) : method unit := λ self,
  if encrypt_is_empty self then (inr (), self)
  else
    match comprehension func (circulist self) with
    | inl e => (inl e, self)
    | inr d => (inr (), set_circulist self d)
    end.

End SequenceOps.

(** *** Chunks and groups of elements *)

Module Chunking.

(** [list(d)[index : index + size]] for [0 <= index] and [0 <= size] *)
Definition slice (d : list value) (index size : Z) : list value :=
  take (Z.to_nat size) (drop (Z.to_nat index) d).

(** [fragmentize(fragment_size)] *)
Definition fragmentize (fragment_size : value) (self : circulis)
  : exn + list (list value) :=
  match as_int fragment_size with
  | None => inl TypeError
  | Some size =>
      let d := circulist self in
      match py_range 0 (Z.of_nat (length d)) size with
      | inl e => inl e
      | inr indices => inr ((λ index, slice d index size) <$> indices)
      end
  end.

(** The loop of [reduce]: a group shorter than [step] ends it. *)
Fixpoint reduce_loop (function : value → list value → exn + value) (step : nat)
    (converted_deque : list value) (indices : list Z) (result : value)
  : exn + value :=
  match indices with
  | [] => inr result
  | index :: rest =>
      let items := slice converted_deque index (Z.of_nat step) in
      if negb (length items =? step) then inr result
      else
        match function result items with
        | inl e => inl e
        | inr result' => reduce_loop function step converted_deque rest result'
        end
  end.

(** [isinstance(start, ...)] for the type named by [type]; no value of the
    model is a float. *)
Definition start_matches (type : string) (start : value) : exn + unit :=
  if String.eqb type "any" then inr ()
  else if String.eqb type "int"
  then (if as_int start is Some _ then inr () else inl ValueError)
  else if String.eqb type "float" then inl ValueError
  else if String.eqb type "str"
  then (if is_str start then inr () else inl ValueError)
  else if String.eqb type "bool"
  then (if start is VBool _ then inr () else inl ValueError)
  else inl ValueError.

(** [reduce(function, start, type)] for a [function] of [parameters]
    parameters, called as [function(result, *items)]. *)
Definition reduce (parameters : nat)
    (function : value → list value → exn + value) (start : value)
    (type : string) (self : circulis) : exn + value :=
  let step := parameters in
  if encrypt_is_empty self then inl ValueError
  else if step <=? 2 then inl ValueError
  else
    match start_matches type start with
    | inl e => inl e
    | inr _ =>
        let converted_deque := circulist self in
        let step := step - 1 in
        match py_range 0 (Z.of_nat (length converted_deque)) (Z.of_nat step) with
        | inl e => inl e
        | inr indices => reduce_loop function step converted_deque indices start
        end
    end.

(** The [k]-th run of [size] elements. *)
Definition run (d : list value) (size k : nat) : list value :=
  take size (drop (k * size) d).

End Chunking.

(** *** Operators *)

Module Operators.
Import SetAlgebra.

(** [self == other] *)
Definition __eq__ (self : circulis) (other : operand) : bool :=
  match encrypt_list_check other with
  | inl _ => false
  | inr _ => all2 py_eqb (circulist self) (elements other)
  end.

(** [_is_numeric]: every item is an [int] or a [float] and no [bool]. *)
Definition encrypt_is_numeric (lst : list value) : bool :=
  forallb (λ item, match item with VInt _ => true | _ => false end) lst.

(** [sum(lst)] for a list that passed [_is_numeric], and
    [sum(bool(item) for item in lst)]. *)
Definition int_sum (lst : list value) : Z :=
  foldr (λ item acc, default 0 (as_int item) + acc)%Z 0%Z lst.

Definition truthy_sum (lst : list value) : Z :=
  foldr (λ item acc, Z.b2z (py_truth item) + acc)%Z 0%Z lst.

(** [_compare_lists(self_list, other_list, operator)] *)
Definition encrypt_compare_lists (self_list : list value) (other_list : operand)
    (operator : string) : exn + bool :=
  match encrypt_list_check other_list with
  | inl e => inl e
  | inr _ =>
      let other := elements other_list in
      let sums :=
        if encrypt_is_numeric self_list && encrypt_is_numeric other
        then (int_sum self_list, int_sum other)
        else (truthy_sum self_list, truthy_sum other) in
      if String.eqb operator "<" then inr (sums.1 <? sums.2)%Z
      else if String.eqb operator ">" then inr (sums.2 <? sums.1)%Z
      else if String.eqb operator "<=" then inr (sums.1 <=? sums.2)%Z
      else if String.eqb operator ">=" then inr (sums.2 <=? sums.1)%Z
      else inl ValueError
  end.

Definition __lt__ (self : circulis) (other : operand) : exn + bool :=
  encrypt_compare_lists (circulist self) other "<".
Definition __gt__ (self : circulis) (other : operand) : exn + bool :=
  encrypt_compare_lists (circulist self) other ">".
Definition __le__ (self : circulis) (other : operand) : exn + bool :=
  encrypt_compare_lists (circulist self) other "<=".
Definition __ge__ (self : circulis) (other : operand) : exn + bool :=
  encrypt_compare_lists (circulist self) other ">=".

(** [self + other], [other + self] and [self += other] *)
Definition __add__ (self : circulis) (other : operand) : exn + circulis :=
  match encrypt_list_check other with
  | inl e => inl e
  | inr _ => inr (new_circulis (circulist self ++ elements other))
  end.

Definition __radd__ (self : circulis) (other : operand) : exn + circulis :=
  match encrypt_list_check other with
  | inl e => inl e
  | inr _ => inr (new_circulis (elements other ++ circulist self))
  end.

Definition __iadd__ (other : operand) : method unit := λ self,
  match encrypt_list_check other with
  | inl e => (inl e, self)
  | inr _ => (inr (), set_circulist self (circulist self ++ elements other))
  end.

(** [lst * n]: nothing is left for [n <= 0]. *)
Definition list_times (lst : list value) (n : Z) : list value :=
  concat (replicate (Z.to_nat n) lst).

(** [self * n] *)
Definition __mul__ (self : circulis) (n : value) : exn + circulis :=
  match as_int n with
  | None => inl TypeError
  | Some n => inr (new_circulis (list_times (circulist self) n))
  end.

(** [for _ in range(times): d.extend(d)]: a deque extended by itself is
    extended by a copy of what it holds. *)
Fixpoint extend_by_itself (times : nat) (d : list value) : list value :=
  match times with
  | 0 => d
  | S times' => extend_by_itself times' (d ++ d)
  end.

(** [self *= n] *)
Definition __imul__ (n : value) : method unit := λ self,
  match as_int n with
  | None => (inl TypeError, self)
  | Some n =>
      (inr (), set_circulist self (extend_by_itself (Z.to_nat n) (circulist self)))
  end.

(** [abs(self)] *)
Definition abs_item (v : value) : value :=
  match v with
  | VBool b => VInt (if b then 1 else 0)
  | VInt z => VInt (Z.abs z)
  | VStr s => VInt (Z.of_nat (String.length s))
  | VList l | VTuple l => VInt (Z.of_nat (length l))
  | VNone => VInt 1
  end.

Definition __abs__ (self : circulis) : circulis :=
  new_circulis (abs_item <$> circulist self).


(** [first | second], [first & second] and [first ^ second] on sets; as for
    every set the order of the listing stands for no order of Python's. *)
Definition set_union (first second : list value) : list value :=
  first ++ filter (λ k, set_contains first k = false) second.

Definition set_intersection (first second : list value) : list value :=
  filter (λ k, set_contains second k = true) first.

Definition set_symmetric_difference (first second : list value) : list value :=
  filter (λ k, set_contains second k = false) first
  ++ filter (λ k, set_contains first k = false) second.

(** The common shape of [__or__], [__and__] and [__xor__]. *)
Definition set_operation (combine : list value → list value → list value)
    (self : circulis) (other : operand) : exn + list value :=
  match encrypt_list_check other with
  | inl e => inl e
  | inr _ =>
      match encrypt_to_set (circulist self) with
      | inl e => inl e
      | inr first =>
          match encrypt_to_set (elements other) with
          | inl e => inl e
          | inr second => inr (combine first second)
          end
      end
  end.

Definition __or__ := set_operation set_union.
Definition __and__ := set_operation set_intersection.
Definition __xor__ := set_operation set_symmetric_difference.

(** The canonical keys of a sequence of elements. *)
Definition canonical_keys (elements : list value) : list value :=
  encrypt_hashify <$> elements.

End Operators.

(** *** Differences and grouping *)

Module Statistics.
Import BulkMutation Operators.

(** [a - b] *)
Definition py_sub (a b : value) : exn + value :=
  match as_int a, as_int b with
  | Some x, Some y => inr (VInt (x - y))
  | _, _ => inl TypeError
  end.

(** [d[i]] on a deque *)
Definition deque_at (d : list value) (i : Z) : exn + value :=
  match deque_position (length d) i with
  | Some j => match d !! j with Some v => inr v | None => inl IndexError end
  | None => inl IndexError
  end.

(** [[body(index) for index in indices]] *)
Fixpoint for_each {A B} (body : A → exn + B) (indices : list A) : exn + list B :=
  match indices with
  | [] => inr []
  | index :: rest =>
      match body index with
      | inl e => inl e
      | inr b =>
          match for_each body rest with
          | inl e => inl e
          | inr bs => inr (b :: bs)
          end
      end
  end.

(** The property [stride] *)
Definition stride (self : circulis) : exn + list value :=
  let d := circulist self in
  if bool_decide (length d ≤ 1) then inl ValueError
  else if negb (encrypt_is_numeric d) then inl ValueError
  else
    match py_range 0 (Z.of_nat (length d) - 1) 1 with
    | inl e => inl e
    | inr indices =>
        for_each
          (λ index,
             match deque_at d (index + 1) with
             | inl e => inl e
             | inr next =>
                 match deque_at d index with
                 | inl e => inl e
                 | inr here => py_sub next here
                 end
             end)
          indices
    end.

End Statistics.

Module Grouping.

(** A Python [dict] as the list of its items in the order the keys were
    first set; a key is hashed and then looked up by [==]. *)
Section Dict.
Context {A : Type}.

Fixpoint dict_get (d : list (value * A)) (key : value) : option A :=
  match d with
  | [] => None
  | (k, a) :: d' => if py_eqb k key then Some a else dict_get d' key
  end.

Fixpoint dict_set (d : list (value * A)) (key : value) (a : A) : list (value * A) :=
  match d with
  | [] => [(key, a)]
  | (k, a') :: d' =>
      if py_eqb k key then (k, a) :: d' else (k, a') :: dict_set d' key a
  end.

End Dict.

(** The loop of [convene]: [new_key not in return_dict] hashes the key. *)
Fixpoint convene_loop (function : value → exn + value) (d : list value)
    (return_dict : list (value * list value)) : exn + list (value * list value) :=
  match d with
  | [] => inr return_dict
  | items :: rest =>
      match function items with
      | inl e => inl e
      | inr new_key =>
          if is_none new_key then inl ValueError
          else if negb (py_hashable new_key) then inl TypeError
          else
            let return_dict :=
              match dict_get return_dict new_key with
              | None => dict_set return_dict new_key []
              | Some _ => return_dict
              end in
            convene_loop function rest
              (dict_set return_dict new_key
                 (default [] (dict_get return_dict new_key) ++ [items]))
      end
  end.

(** [convene(function)]: the items of the [defaultdict] it returns. *)
Definition convene (function : value → exn + value) (self : circulis) :
    exn + list (value * list value) :=
  convene_loop function (circulist self) [].

(** [Counter(iterable)]: [self[elem] = self.get(elem, 0) + 1] for each. *)
Fixpoint Counter (iterable : list value) (counts : list (value * nat)) :
    exn + list (value * nat) :=
  match iterable with
  | [] => inr counts
  | elem :: rest =>
      if py_hashable elem
      then Counter rest (dict_set counts elem (default 0 (dict_get counts elem) + 1))
      else inl TypeError
  end.

(** [max(items, key=itemgetter(1))]: the first item of the highest count. *)
Fixpoint max_by_count (best : value * nat) (items : list (value * nat)) : value * nat :=
  match items with
  | [] => best
  | item :: rest =>
      if best.2 <? item.2 then max_by_count item rest else max_by_count best rest
  end.

(** [most_common(1)] *)
Definition most_common_1 (counts : list (value * nat)) : list (value * nat) :=
  match counts with
  | [] => []
  | first :: rest => [max_by_count first rest]
  end.

(** The property [dominant] *)
Definition dominant (self : circulis) : exn + (value * nat) :=
  if encrypt_is_empty self then inl ValueError
  else
    match Counter (circulist self) [] with
    | inl e => inl e
    | inr counts =>
        match most_common_1 counts with
        | item :: _ => inr item
        | [] => inl IndexError
        end
    end.

(** Whether [function] gives [items] a key equal to [key], and how many
    elements equal [item]. *)
Definition has_key (function : value → exn + value) (key items : value) : bool :=
  match function items with
  | inr k => py_eqb k key
  | inl _ => false
  end.

Definition occurrences (item : value) (d : list value) : nat :=
  length (filter (λ x, py_eqb x item = true) d).

(** The group of a key: the elements whose key equals it, in order. *)
Definition group_of (function : value → exn + value) (key : value)
    (d : list value) : list value :=
  filter (λ x, has_key function key x = true) d.

(** [function] gives [x] a key that [convene] accepts. *)
Definition usable_key (function : value → exn + value) (x : value) : Prop :=
  ∃ k, function x = inr k ∧ is_none k = false ∧ py_hashable k = true.

(** The keys of a loop that sets the key of each element in turn: the
    elements that equal no earlier one, in order. *)
Definition firsts (d : list value) : list value :=
  foldl (λ keys x, if SetAlgebra.set_contains keys x then keys else keys ++ [x])
    [] d.

(** What a lookup gives for the group or the count of a key. *)
Definition nonempty {A} (l : list A) : option (list A) :=
  match l with [] => None | _ => Some l end.

Definition positive (n : nat) : option nat :=
  match n with 0 => None | _ => Some n end.

End Grouping.

(** *** Selecting, zipping and subtracting in place *)

Module Selection.
Import SetAlgebra SequenceOps.

(** [[items for items in d if func(items)]], for a [func] that may raise. *)
Fixpoint keep_if (func : value → exn + value) (d : list value) : exn + list value :=
  match d with
  | [] => inr []
  | items :: d' =>
      match func items with
      | inl e => inl e
      | inr keep =>
          match keep_if func d' with
          | inl e => inl e
          | inr kept => inr (if py_truth keep then items :: kept else kept)
          end
      end
  end.

(** [filter(func)] *)
Definition filter_in_place (func : value → exn + value) : method unit := λ self,
  if encrypt_is_empty self then (inr (), self)
  else
    match keep_if func (circulist self) with
    | inl e => (inl e, self)
    | inr d => (inr (), set_circulist self d)
    end.

(** [func] returns something true for [items]. *)
Definition passes (func : value → exn + value) (items : value) : bool :=
  match func items with
  | inr keep => py_truth keep
  | inl _ => false
  end.

(** [[function(a, b) for a, b in zip(l, m)]] *)
Fixpoint zipped_comprehension (function : value → value → exn + value) (l m : list value)
  : exn + list value :=
  match l, m with
  | a :: l', b :: m' =>
      match function a b with
      | inl e => inl e
      | inr c =>
          match zipped_comprehension function l' m' with
          | inl e => inl e
          | inr cs => inr (c :: cs)
          end
      end
  | _, _ => inr []
  end.

(** [synergy(other_list, function)] for a [function] of [parameters]
    parameters. *)
Definition synergy (parameters : nat) (other_list : operand)
    (function : value → value → exn + value) (self : circulis) : exn + list value :=
  if encrypt_is_empty self then inr []
  else
    match encrypt_list_check other_list with
    | inl e => inl e
    | inr _ =>
        if negb (parameters =? 2) then inl ValueError
        else zipped_comprehension function (circulist self) (elements other_list)
    end.

(** What [self -= other] can raise: an exception of the check, or the
    [RuntimeError] of a deque that has been mutated while a loop runs over
    it. *)
Inductive isub_error : Type :=
| Checked (e : exn)
| RuntimeError.

(** The inner loop [for items in self.circulist]: the first item that
    [values] equals is removed, and the iterator raises at its next step,
    which it takes even after the last item. *)
Definition first_equal (values : value) (d : list value) : option value :=
  List.find (λ items, py_eqb values items) d.

Fixpoint isub_loop (other : list value) (self : circulis)
  : (isub_error + unit) * circulis :=
  match other with
  | [] => (inr (), self)
  | values :: rest =>
      match first_equal values (circulist self) with
      | None => isub_loop rest self
      | Some items =>
          match deque_remove items (circulist self) with
          | Some d => (inl RuntimeError, set_circulist self d)
          | None => (inl (Checked ValueError), self)
          end
      end
  end.

(** [self -= other], for an [other] that is not the deque of [self]. *)
Definition __isub__ (other : operand) (self : circulis)
  : (isub_error + unit) * circulis :=
  match encrypt_list_check other with
  | inl e => (inl (Checked e), self)
  | inr _ => isub_loop (elements other) self
  end.

End Selection.

(** ** Properties *)

(** Running a sequence of two steps. *)
Lemma bind_returns {A B} (m : method A) (k : A → method B) self a self' :
  m self = (inr a, self') → bind m k self = k a self'.
Proof. unfold bind. by intros ->. Qed.

Lemma bind_raises {A B} (m : method A) (k : A → method B) self e self' :
  m self = (inl e, self') → bind m k self = (inl e, self').
Proof. unfold bind. by intros ->. Qed.

Module SequenceCoreFacts.
Import SequenceCore.

Example pop_left_example :
  pop "left" (new_circulis [VInt 1; VInt 2; VInt 3])
  = (inr (VInt 3), new_circulis [VInt 1; VInt 2]).
Proof. reflexivity. Qed.

Example pop_right_example :
  pop "right" (new_circulis [VInt 1; VInt 2; VInt 3])
  = (inr (VInt 1), new_circulis [VInt 2; VInt 3]).
Proof. reflexivity. Qed.

(** C9: on a non-empty container [pop("left")] removes and returns the
    element at the right end, and [pop("right")] removes and returns the
    element at the left end. *)
Theorem pop_direction_is_reversed (self : circulis) :
  circulist self ≠ [] →
  ∃ x y,
    last (circulist self) = Some x
    ∧ head (circulist self) = Some y
    ∧ pop "left" self
      = (inr x, set_circulist self (take (length (circulist self) - 1) (circulist self)))
    ∧ pop "right" self = (inr y, set_circulist self (tail (circulist self))).
Proof.
  destruct self as [d nm]. cbn [circulist]. intros Hne.
  assert (∃ d' y, d = d' ++ [y]) as (d' & y & Hd).
  { destruct d as [|y d' _] using rev_ind; [done|]. by exists d', y. }
  destruct d as [|z rest]; [done|].
  exists y, z. split; [by rewrite Hd, last_snoc|]. split; [done|].
  change (pop "left") with deque_pop. change (pop "right") with deque_popleft.
  split; [|done].
  unfold deque_pop, set_circulist. cbn [circulist name].
  rewrite Hd, reverse_snoc, reverse_involutive, length_app. cbn [length].
  by rewrite Nat.add_sub, take_app_length.
Qed.

Lemma pop_direction_is_reversed_witness :
  ∃ x y,
    last [VInt 1; VInt 2; VInt 3] = Some x
    ∧ head [VInt 1; VInt 2; VInt 3] = Some y
    ∧ pop "left" (new_circulis [VInt 1; VInt 2; VInt 3])
      = (inr x, new_circulis [VInt 1; VInt 2])
    ∧ pop "right" (new_circulis [VInt 1; VInt 2; VInt 3])
      = (inr y, new_circulis [VInt 2; VInt 3]).
Proof.
  exact (pop_direction_is_reversed (new_circulis [VInt 1; VInt 2; VInt 3])
           ltac:(discriminate)).
Defined.

End SequenceCoreFacts.

Module BulkMutationFacts.
Import BulkMutation.

Example remove_1_3 :
  remove (VInt 1) (VInt 3) (VInt 1) (new_circulis (ints [10; 20; 30; 40; 50]%Z))
  = (inr (), new_circulis (ints [10; 50]%Z)).
Proof. reflexivity. Qed.

Example remove_0_4_2 :
  remove (VInt 0) (VInt 4) (VInt 2) (new_circulis (ints [10; 20; 30; 40; 50]%Z))
  = (inr (), new_circulis (ints [20; 40]%Z)).
Proof. reflexivity. Qed.

Example insert_1_3 :
  insert (VInt 0) (VInt 1) (VInt 3) (VInt 1) (new_circulis (ints [1; 2; 3; 4; 5]%Z))
  = (inr (), new_circulis (ints [1; 0; 0; 0; 2; 3; 4; 5]%Z)).
Proof. reflexivity. Qed.

(** **** The index list of [range] *)

Lemma range_elems_S start step n :
  range_elems start step (S n) = start :: range_elems (start + step) step n.
Proof.
  unfold range_elems. cbn [seq fmap list_fmap]. f_equal; [lia|].
  rewrite <- fmap_S_seq, <- list_fmap_compose.
  apply list_fmap_ext. intros _ k _. cbn. lia.
Qed.

Lemma range_elems_length start step n : length (range_elems start step n) = n.
Proof. unfold range_elems. by rewrite length_fmap, length_seq. Qed.

Lemma range_elems_lower start step n i :
  (0 < step)%Z → i ∈ range_elems start step n → (start <= i)%Z.
Proof.
  intros Hs (k & -> & _)%list_elem_of_fmap. nia.
Qed.

Lemma range_elems_lookup start step n k :
  k < n → range_elems start step n !! k = Some (start + Z.of_nat k * step)%Z.
Proof.
  intros Hk. unfold range_elems.
  by rewrite list_lookup_fmap, lookup_seq_lt.
Qed.

Lemma range_elems_take start step n k :
  k ≤ n → take k (range_elems start step n) = range_elems start step k.
Proof.
  intros Hk. unfold range_elems.
  rewrite <- fmap_take, take_seq. do 2 f_equal. lia.
Qed.

(** The length [range] computes is the number of [k] with
    [start + k * step <= stop]. *)
Lemma range_len_inclusive start stop step :
  (0 < step)%Z → (start <= stop)%Z →
  Z.of_nat (range_len start (stop + 1) step) = ((stop - start) / step + 1)%Z.
Proof.
  intros Hs Hle. unfold range_len.
  rewrite (proj2 (Z.ltb_lt 0 step)) by done.
  rewrite (proj2 (Z.ltb_lt start (stop + 1))) by lia.
  replace (stop + 1 - start - 1)%Z with (stop - start)%Z by lia.
  assert (0 <= (stop - start) / step)%Z by (apply Z.div_pos; lia).
  lia.
Qed.

Lemma range_len_empty start stop step :
  (0 < step)%Z → (stop < start)%Z → range_len start (stop + 1) step = 0.
Proof.
  intros Hs Hlt. unfold range_len.
  rewrite (proj2 (Z.ltb_lt 0 step)) by done.
  by rewrite (proj2 (Z.ltb_ge start (stop + 1))) by lia.
Qed.

(** The indices [remove] runs over are the scheduled positions. *)
Lemma range_elems_scheduled start stop step i :
  (0 < step)%Z →
  i ∈ range_elems start step (range_len start (stop + 1) step)
  ↔ scheduled start stop step i = true.
Proof.
  intros Hs. unfold scheduled.
  rewrite !andb_true_iff, !Z.leb_le, Z.eqb_eq.
  destruct (Z_lt_le_dec stop start) as [Hlt|Hle].
  - rewrite range_len_empty by done. split; [by intros ?%elem_of_nil | lia].
  - pose proof (range_len_inclusive start stop step Hs Hle) as Hlen.
    split.
    + intros (k & -> & Hk%elem_of_seq)%list_elem_of_fmap.
      assert (Z.of_nat k <= (stop - start) / step)%Z as Hkq by lia.
      assert (step * ((stop - start) / step) <= stop - start)%Z
        by (apply Z.mul_div_le; lia).
      replace (start + Z.of_nat k * step - start)%Z with (Z.of_nat k * step)%Z by lia.
      rewrite Z.mod_mul by lia. nia.
    + intros [[Hlo Hhi] Hmod].
      apply list_elem_of_fmap. exists (Z.to_nat ((i - start) / step)).
      assert (0 <= (i - start) / step)%Z by (apply Z.div_pos; lia).
      assert ((i - start) / step <= (stop - start) / step)%Z
        by (apply Z.div_le_mono; lia).
      split.
      * rewrite Z2Nat.id by done.
        pose proof (Z.div_mod (i - start) step ltac:(lia)). lia.
      * apply elem_of_seq. lia.
Qed.

(** **** Positions that are dropped *)

Lemma drop_positions_ext f g i d :
  (∀ j, (i <= j)%Z → f j = g j) → drop_positions f i d = drop_positions g i d.
Proof.
  revert i. induction d as [|x d IH]; intros i Hfg; [done|].
  cbn. rewrite <- (Hfg i) by lia.
  rewrite (IH (i + 1)%Z) by (intros; apply Hfg; lia). done.
Qed.

Lemma drop_positions_none f i d :
  (∀ j, (i <= j)%Z → f j = false) → drop_positions f i d = d.
Proof.
  revert i. induction d as [|x d IH]; intros i Hf; [done|].
  cbn. rewrite Hf by lia. f_equal. apply IH. intros; apply Hf; lia.
Qed.

Lemma drop_positions_app f i d1 d2 :
  (∀ j, (i <= j < i + Z.of_nat (length d1))%Z → f j = false) →
  drop_positions f i (d1 ++ d2)
  = d1 ++ drop_positions f (i + Z.of_nat (length d1)) d2.
Proof.
  revert i. induction d1 as [|x d1 IH]; intros i Hf.
  - cbn. by rewrite Z.add_0_r.
  - cbn [app drop_positions length]. rewrite Hf by (cbn [length]; lia).
    rewrite IH by (intros; apply Hf; cbn [length]; lia).
    by replace (i + 1 + Z.of_nat (length d1))%Z
      with (i + Z.of_nat (S (length d1)))%Z by lia.
Qed.

(** **** The deletion loop *)

Lemma deque_delitem_here nm pre x suf i :
  i = Z.of_nat (length pre) →
  deque_delitem i (Circulis (pre ++ x :: suf) nm) = (inr (), Circulis (pre ++ suf) nm).
Proof.
  intros ->. unfold deque_delitem, deque_position, set_circulist. cbn.
  rewrite length_app. cbn.
  rewrite (proj2 (Z.ltb_ge _ 0)) by lia.
  rewrite (proj2 (Z.leb_le 0 _)) by lia.
  rewrite (proj2 (Z.ltb_lt _ _)) by lia. cbn.
  by rewrite Nat2Z.id, delete_middle.
Qed.

(** Run on [pre ++ suf], where [suf] starts at the original position [idx]
    and [index_fixer] elements before it are already gone, the loop leaves
    [pre] alone and drops from [suf] the positions it was given. *)
Lemma remove_loop_scheduled nm step n :
  (0 < step)%Z → ∀ idx fixer pre suf,
  Z.of_nat (length pre) = (idx - fixer)%Z →
  (∀ k, k < n → (Z.of_nat k * step < Z.of_nat (length suf))%Z) →
  remove_loop (range_elems idx step n) fixer (Circulis (pre ++ suf) nm)
  = (inr (),
     Circulis (pre ++ drop_positions
                        (λ i, bool_decide (i ∈ range_elems idx step n)) idx suf) nm).
Proof.
  intros Hs. induction n as [|n IH]; intros idx fixer pre suf Hpre Hin.
  - cbn. by rewrite drop_positions_none.
  - rewrite range_elems_S. cbn [remove_loop]. unfold bind.
    destruct suf as [|x suf']; [specialize (Hin 0 ltac:(lia)); cbn in Hin; lia|].
    rewrite deque_delitem_here by lia.
    cbn [drop_positions]. rewrite bool_decide_eq_true_2 by apply list_elem_of_here.
    destruct n as [|n'].
    + cbn. rewrite drop_positions_none; [done|].
      intros j Hj. apply bool_decide_eq_false_2.
      intros ?%list_elem_of_singleton. lia.
    + specialize (Hin 1 ltac:(lia)) as Hlen. cbn [length] in Hlen.
      set (m := Z.to_nat (step - 1)).
      assert (length (take m suf') = m) as Hmid by (rewrite length_take; lia).
      pose proof (take_drop m suf') as Hsplit. revert Hmid Hsplit.
      generalize (take m suf') (drop m suf'). intros mid rest Hmid <-.
      rewrite app_assoc, IH; first last.
      { intros k Hk. specialize (Hin (S k) ltac:(lia)).
        cbn [length] in Hin. rewrite length_app in Hin. lia. }
      { rewrite length_app, Hmid. lia. }
      rewrite <- app_assoc, drop_positions_app.
      * rewrite Hmid.
        replace (idx + 1 + Z.of_nat m)%Z with (idx + step)%Z by lia.
        do 4 f_equal.
        apply drop_positions_ext. intros j Hj.
        apply bool_decide_ext. rewrite elem_of_cons. intuition lia.
      * intros j Hj. rewrite Hmid in Hj. apply bool_decide_eq_false_2.
        intros [?|Hel%range_elems_lower]%elem_of_cons; lia.
Qed.

(** After the first [n] deletions the part of the deque that has not been
    reached yet is still in place, [n] positions further left. *)
Lemma remove_loop_prefix nm step n :
  (0 < step)%Z → ∀ idx fixer pre suf,
  Z.of_nat (length pre) = (idx - fixer)%Z →
  (Z.of_nat n * step <= Z.of_nat (length suf))%Z →
  ∃ pre',
    remove_loop (range_elems idx step n) fixer (Circulis (pre ++ suf) nm)
    = (inr (), Circulis (pre' ++ drop (Z.to_nat (Z.of_nat n * step)) suf) nm)
    ∧ Z.of_nat (length pre') = (idx + Z.of_nat n * step - (fixer + Z.of_nat n))%Z.
Proof.
  intros Hs. induction n as [|n IH]; intros idx fixer pre suf Hpre Hlen.
  - exists pre. cbn. split; [done|lia].
  - rewrite range_elems_S. cbn [remove_loop]. unfold bind.
    destruct suf as [|x suf']; [cbn [length] in Hlen; nia|].
    rewrite deque_delitem_here by lia.
    cbn [length] in Hlen.
    set (m := Z.to_nat (step - 1)).
    assert (length (take m suf') = m) as Hmid by (rewrite length_take; nia).
    destruct (IH (idx + step)%Z (fixer + 1)%Z (pre ++ take m suf') (drop m suf'))
      as (pre' & Hrun & Hpre').
    { rewrite length_app, Hmid. lia. }
    { rewrite length_drop. nia. }
    exists pre'. split; [|lia].
    rewrite <- (take_drop m suf') at 1. rewrite app_assoc, Hrun.
    rewrite drop_drop.
    replace (Z.to_nat (Z.of_nat (S n) * step)) with (S (m + Z.to_nat (Z.of_nat n * step)))
      by nia.
    done.
Qed.

Lemma remove_in_bounds nm d start stop step :
  let len := Z.of_nat (length d) in
  (0 <= start < len)%Z → (0 <= stop < len)%Z → (0 < step < len)%Z →
  remove (VInt start) (VInt stop) (VInt step) (Circulis d nm)
  = remove_loop (range_elems start step (range_len start (stop + 1) step)) 0
      (Circulis d nm).
Proof.
  intros len Hstart Hstop Hstep. unfold remove, encrypt_is_empty.
  destruct d as [|x d']; [cbn in len; lia|]. cbn -[range_len length].
  fold len.
  rewrite (proj2 (Z.leb_gt len start)), (proj2 (Z.leb_gt len stop)),
    (proj2 (Z.leb_gt len step)) by lia.
  cbn -[range_len]. unfold py_range.
  rewrite (proj2 (Z.eqb_neq step 0)) by lia.
  by destruct (start <? 0)%Z, (stop <? 0)%Z.
Qed.

Lemma range_elems_upper start stop step k :
  (0 < step)%Z → k < range_len start (stop + 1) step →
  (start + Z.of_nat k * step <= stop)%Z.
Proof.
  intros Hs Hk.
  assert (scheduled start stop step (start + Z.of_nat k * step) = true) as Hsched.
  { apply range_elems_scheduled; [done|].
    apply list_elem_of_fmap. exists k. split; [done|]. apply elem_of_seq. lia. }
  unfold scheduled in Hsched. rewrite !andb_true_iff, !Z.leb_le in Hsched. lia.
Qed.

(** The loop over [l1 ++ l2]: once [l1] is done, [index_fixer] has grown by
    the length of [l1]. *)
Lemma remove_loop_app l1 l2 : ∀ fixer self mid,
  remove_loop l1 fixer self = (inr (), mid) →
  remove_loop (l1 ++ l2) fixer self
  = remove_loop l2 (fixer + Z.of_nat (length l1)) mid.
Proof.
  induction l1 as [|index l1 IH]; intros fixer self mid Hrun.
  - cbn in Hrun. injection Hrun as <-. cbn. by rewrite Z.add_0_r.
  - cbn [remove_loop app] in Hrun |- *. unfold bind in Hrun |- *.
    destruct (deque_delitem (index - fixer) self) as [[e|u] self1]; [done|].
    rewrite (IH _ _ _ Hrun). f_equal. cbn [length]. lia.
Qed.

(** With its arguments within the deque the loop runs to its end and drops
    the scheduled positions. *)
Lemma remove_loop_in_bounds nm d start stop step :
  (0 <= start < Z.of_nat (length d))%Z →
  (0 <= stop < Z.of_nat (length d))%Z →
  (0 < step)%Z →
  remove_loop (range_elems start step (range_len start (stop + 1) step)) 0
    (Circulis d nm)
  = (inr (), Circulis (drop_positions (scheduled start stop step) 0 d) nm).
Proof.
  intros Hstart Hstop Hstep.
  assert (length (take (Z.to_nat start) d) = Z.to_nat start) as Hpre
    by (rewrite length_take; lia).
  rewrite <- (take_drop (Z.to_nat start) d) at 1 2.
  rewrite remove_loop_scheduled; [|lia|lia|].
  - rewrite drop_positions_app.
    + rewrite Hpre. do 3 f_equal.
      replace (0 + Z.of_nat (Z.to_nat start))%Z with start by lia.
      apply drop_positions_ext. intros j _.
      destruct (scheduled start stop step j) eqn:Hj.
      * apply bool_decide_eq_true_2. by apply range_elems_scheduled; [lia|].
      * apply bool_decide_eq_false_2.
        intros Hin%range_elems_scheduled; [congruence|lia].
    + intros j Hj. rewrite Hpre in Hj. unfold scheduled.
      rewrite (proj2 (Z.leb_gt start j)) by lia. done.
  - intros k Hk%(range_elems_upper start stop step); [|done].
    rewrite length_drop. lia.
Qed.

(** C1, as amended: for a non-empty container and integers with
    [0 <= start < length], [0 <= stop < length] and [0 < step < length],
    [remove(start, stop, step)] returns normally and deletes exactly the
    elements at the scheduled positions [start, start+step, ...] up to
    [stop]; the [k]-th scheduled index [i] is deleted at position [i - k],
    which at that moment holds the element that was at [i] originally. *)
Theorem remove_deletes_scheduled (self : circulis) (start stop step : Z) :
  (0 <= start < Z.of_nat (length (circulist self)))%Z →
  (0 <= stop < Z.of_nat (length (circulist self)))%Z →
  (0 < step < Z.of_nat (length (circulist self)))%Z →
  removes_scheduled self start stop step
  ∧ ∃ indices, py_range start (stop + 1) step = inr indices
    ∧ ∀ (k : nat) (i : Z), indices !! k = Some i →
        i = (start + Z.of_nat k * step)%Z
        ∧ ∃ mid, remove_loop (take k indices) 0 self = (inr (), mid)
          ∧ remove_loop indices 0 self
            = (do _ <- deque_delitem (i - Z.of_nat k);
               remove_loop (drop (S k) indices) (Z.of_nat k + 1)) mid
          ∧ deque_position (length (circulist mid)) (i - Z.of_nat k)
            = Some (Z.to_nat (i - Z.of_nat k))
          ∧ circulist mid !! Z.to_nat (i - Z.of_nat k)
            = circulist self !! Z.to_nat i.
Proof.
  destruct self as [d nm]. cbn [circulist]. intros Hstart Hstop Hstep.
  set (n := range_len start (stop + 1) step).
  split.
  - unfold removes_scheduled, set_circulist. cbn [circulist name].
    rewrite remove_in_bounds by done. apply remove_loop_in_bounds; lia.
  - exists (range_elems start step n). split.
    { unfold py_range. by rewrite (proj2 (Z.eqb_neq step 0)) by lia. }
    intros k i Hki.
    assert (k < n) as Hk.
    { apply lookup_lt_Some in Hki. by rewrite range_elems_length in Hki. }
    pose proof (take_drop_middle _ _ _ Hki) as Hsplit.
    rewrite range_elems_lookup in Hki by done. injection Hki as <-.
    split; [done|].
    pose proof (range_elems_upper start stop step k ltac:(lia) Hk) as Hsched.
    destruct (remove_loop_prefix nm step k ltac:(lia) start 0%Z
                (take (Z.to_nat start) d) (drop (Z.to_nat start) d))
      as (pre' & Hrun & Hpre'); [rewrite length_take; lia|rewrite length_drop; lia|].
    rewrite take_drop, <- (range_elems_take start step n k) in Hrun by lia.
    eexists. split; [exact Hrun|]. split.
    { rewrite <- Hsplit at 1. rewrite (remove_loop_app _ _ _ _ _ Hrun).
      rewrite length_take, range_elems_length, Nat.min_l, Z.add_0_l by lia.
      done. }
    cbn [circulist].
    assert (Z.to_nat (start + Z.of_nat k * step - Z.of_nat k) = length pre') as ->
      by lia.
    split.
    + unfold deque_position. rewrite length_app, length_drop, length_drop.
      rewrite (proj2 (Z.ltb_ge _ 0)) by lia.
      rewrite (proj2 (Z.leb_le 0 _)) by lia.
      rewrite (proj2 (Z.ltb_lt _ _)) by lia. cbn. f_equal. lia.
    + rewrite lookup_app_r, Nat.sub_diag, !lookup_drop by lia.
      f_equal. lia.
Qed.

(** The two removals the description gives as examples, obtained from the
    theorem. *)
Lemma remove_deletes_scheduled_examples :
  remove (VInt 1) (VInt 3) (VInt 1) (new_circulis (ints [10; 20; 30; 40; 50]%Z))
  = (inr (), new_circulis (ints [10; 50]%Z))
  ∧ remove (VInt 0) (VInt 4) (VInt 2) (new_circulis (ints [10; 20; 30; 40; 50]%Z))
  = (inr (), new_circulis (ints [20; 40]%Z)).
Proof.
  split.
  - exact (proj1 (remove_deletes_scheduled
                    (new_circulis (ints [10; 20; 30; 40; 50]%Z)) 1 3 1
                    ltac:(cbn; lia) ltac:(cbn; lia) ltac:(cbn; lia))).
  - exact (proj1 (remove_deletes_scheduled
                    (new_circulis (ints [10; 20; 30; 40; 50]%Z)) 0 4 2
                    ltac:(cbn; lia) ltac:(cbn; lia) ltac:(cbn; lia))).
Defined.

(** C1 as stated lets [step] be 0: then [range] rejects the step, [remove]
    raises [ValueError] and nothing is deleted. *)
Lemma remove_step_zero_fails :
  let self := new_circulis (ints [10; 20; 30]%Z) in
  ((0 <= 0 < Z.of_nat (length (circulist self)))%Z
   ∧ (0 <= 2 < Z.of_nat (length (circulist self)))%Z)
  ∧ remove (VInt 0) (VInt 2) (VInt 0) self = (inl ValueError, self)
  ∧ ¬ removes_scheduled self 0 2 0.
Proof.
  cbn. repeat split; try lia. unfold removes_scheduled. cbn. discriminate.
Qed.

End BulkMutationFacts.

Module AggregationFacts.
Import Aggregation.

Example sum_examples :
  let self := new_circulis [VInt 1; VStr "x"; VInt 2] in
  sum (VInt 0) "coerce" self = inr (VInt 3)
  ∧ sum (VInt 0) "raise" self = inl ValueError
  ∧ sum (VInt 0) "terminate" self = inr (VInt 1)
  ∧ sum (VInt 5) "raise" (new_circulis [VInt 1; VInt 2; VInt 3]) = inr (VInt 11).
Proof. by cbn. Qed.

(** C8: [count] returns 0 for every container, empty or not, and every
    item: its guard tests the bound method object, which is always true, so
    the occurrences are never counted. *)
Theorem count_is_always_zero (self : circulis) (item : value) :
  count item self = inr 0%Z
  ∧ truth (BoundMethod encrypt_is_empty self) = true
  ∧ truth (Returned (VBool (encrypt_is_empty self))) = encrypt_is_empty self.
Proof.
  unfold count. destruct self as [d nm].
  destruct d as [|x d]; repeat split.
Qed.

Example count_docstring_example :
  count (VInt 1) (new_circulis (VInt <$> [1; 2; 3; 1; 2; 1]%Z)) = inr 0%Z
  ∧ Counter_getitem (VInt <$> [1; 2; 3; 1; 2; 1]%Z) (VInt 1) = inr 3%Z.
Proof. by cbn. Qed.

(** **** The three summation loops *)

Lemma py_add_number a x s z :
  as_int a = Some s → as_int x = Some z → py_add a x = inr (VInt (s + z)).
Proof. destruct a, x; cbn; intros; simplify_eq; done. Qed.

Lemma py_add_not_number a x s :
  as_int a = Some s → as_int x = None → py_add a x = inl TypeError.
Proof. destruct a, x; cbn; intros; simplify_eq; done. Qed.

Lemma builtin_sum_numbers l : ∀ a s,
  as_int a = Some s → Forall (λ v, is_number v = true) l →
  builtin_sum l a = inr (if l is [] then a else VInt (s + total (numbers l))).
Proof.
  induction l as [|x l IH]; intros a s Ha Hall; [done|].
  apply Forall_cons in Hall as [Hx Hl]. unfold is_number in Hx.
  destruct (as_int x) as [z|] eqn:Hz; [|done].
  cbn [builtin_sum]. rewrite (py_add_number a x s z) by done.
  rewrite (IH (VInt (s + z)) (s + z)%Z) by done.
  unfold numbers. cbn [omap list_omap]. rewrite Hz.
  destruct l; cbn; f_equal; f_equal; lia.
Qed.

Lemma builtin_sum_not_number l : ∀ a s,
  as_int a = Some s → ¬ Forall (λ v, is_number v = true) l →
  builtin_sum l a = inl TypeError.
Proof.
  induction l as [|x l IH]; intros a s Ha Hall.
  - by destruct Hall.
  - cbn [builtin_sum]. destruct (as_int x) as [z|] eqn:Hz.
    + rewrite (py_add_number a x s z) by done.
      apply (IH _ (s + z)%Z); [done|]. intros Hl. apply Hall.
      constructor; [|done]. unfold is_number. by rewrite Hz.
    + by rewrite (py_add_not_number a x s).
Qed.

Lemma sum_coerce_numbers l : ∀ a s,
  as_int a = Some s →
  ∃ r, sum_coerce l a = inr r ∧ as_int r = Some (s + total (numbers l))%Z.
Proof.
  induction l as [|x l IH]; intros a s Ha.
  - exists a. cbn. split; [done|]. rewrite Ha. f_equal. lia.
  - cbn [sum_coerce]. unfold numbers. cbn [omap list_omap].
    destruct (as_int x) as [z|] eqn:Hz.
    + rewrite (py_add_number a x s z) by done.
      destruct (IH (VInt (s + z)) (s + z)%Z) as (r & -> & Hr); [done|].
      exists r. split; [done|]. rewrite Hr. unfold numbers, total. cbn [foldr].
      f_equal. lia.
    + rewrite (py_add_not_number a x s) by done. by apply IH.
Qed.

Lemma sum_terminate_numbers l : ∀ a s,
  as_int a = Some s →
  ∃ r, sum_terminate l a = inr r
       ∧ as_int r = Some (s + total (leading_numbers l))%Z.
Proof.
  induction l as [|x l IH]; intros a s Ha.
  - exists a. cbn. split; [done|]. rewrite Ha. f_equal. lia.
  - cbn [sum_terminate leading_numbers].
    destruct (as_int x) as [z|] eqn:Hz.
    + rewrite (py_add_number a x s z) by done.
      destruct (IH (VInt (s + z)) (s + z)%Z) as (r & -> & Hr); [done|].
      exists r. split; [done|]. rewrite Hr. unfold total. cbn [foldr].
      f_equal. lia.
    + rewrite (py_add_not_number a x s) by done.
      exists a. split; [done|]. rewrite Ha. cbn. f_equal. lia.
Qed.

(** C2: for a numeric [start] (an [int]; [bool] counts as one, as it does
    for Python's [+]), [sum] on an empty container returns 0 whatever the
    policy; on a non-empty one ["raise"] returns [start] plus the sum of the
    elements when all are numbers and fails with [ValueError]
    (InvalidOperation) as soon as one is not, ["coerce"] returns [start] plus
    the sum of the numbers, skipping the rest, and ["terminate"] returns
    [start] plus the sum of the numbers that come before the first element
    that is not one. *)
Theorem sum_error_policies (self : circulis) (start : value) (s : Z) :
  as_int start = Some s →
  (circulist self = [] → ∀ error, sum start error self = inr (VInt 0))
  ∧ (circulist self ≠ [] →
      (Forall (λ v, is_number v = true) (circulist self) →
         sum start "raise" self = inr (VInt (s + total (numbers (circulist self)))))
      ∧ (¬ Forall (λ v, is_number v = true) (circulist self) →
         sum start "raise" self = inl ValueError)
      ∧ (∃ r, sum start "coerce" self = inr r
              ∧ as_int r = Some (s + total (numbers (circulist self)))%Z)
      ∧ (∃ r, sum start "terminate" self = inr r
              ∧ as_int r = Some (s + total (leading_numbers (circulist self)))%Z)).
Proof.
  intros Hs. destruct self as [d nm]. cbn [circulist]. split.
  - intros -> error. reflexivity.
  - intros Hne. unfold sum, encrypt_is_empty, is_number. cbn [circulist].
    destruct d as [|x d]; [done|]. rewrite Hs. cbn [negb].
    repeat split.
    + intros Hall. cbn -[builtin_sum numbers total].
      rewrite (builtin_sum_numbers (x :: d) (VInt 0) 0%Z) by done.
      rewrite (py_add_number start _ s (0 + total (numbers (x :: d)))%Z) by done.
      do 2 f_equal.
    + intros Hall. cbn -[builtin_sum].
      by rewrite (builtin_sum_not_number (x :: d) (VInt 0) 0%Z).
    + cbn -[sum_coerce numbers total]. by apply sum_coerce_numbers.
    + cbn -[sum_terminate leading_numbers total]. by apply sum_terminate_numbers.
Qed.

(** The sums the description gives for [[1, "x", 2]], read off the theorem. *)
Lemma sum_error_policies_witness :
  let self := new_circulis [VInt 1; VStr "x"; VInt 2] in
  sum (VInt 0) "raise" self = inl ValueError
  ∧ (∃ r, sum (VInt 0) "coerce" self = inr r ∧ as_int r = Some 3%Z)
  ∧ (∃ r, sum (VInt 0) "terminate" self = inr r ∧ as_int r = Some 1%Z)
  ∧ sum (VInt 0) "raise" (new_circulis []) = inr (VInt 0).
Proof.
  pose proof (sum_error_policies (new_circulis [VInt 1; VStr "x"; VInt 2])
                (VInt 0) 0%Z eq_refl) as [_ Hfull].
  destruct (Hfull ltac:(discriminate)) as (_ & Hraise & Hcoerce & Hterminate).
  pose proof (sum_error_policies (new_circulis []) (VInt 0) 0%Z eq_refl)
    as [Hempty _].
  refine (conj (Hraise _) (conj Hcoerce (conj Hterminate (Hempty eq_refl _)))).
  intros Hall. apply Forall_cons in Hall as [_ Hall].
  apply Forall_cons in Hall as [Hx _]. discriminate Hx.
Defined.

End AggregationFacts.

Module TransformFacts.
Import Transform.

Example pair_example :
  pair (new_circulis [VInt 1; VInt 2; VInt 3])
  = (inr [VTuple [VInt 1; VInt 2]; VTuple [VInt 3; VNone]],
     new_circulis [VInt 1; VInt 2; VInt 3; VNone]).
Proof. reflexivity. Qed.

Example disentangle_nested_lists :
  disentangle 10 (new_circulis [VList [VInt 2; VInt 3]; VList [VInt 4; VList [VInt 5]]])
  = (inr (), new_circulis [VList [VInt 2; VInt 3]; VList [VInt 4; VList [VInt 5]]]).
Proof. reflexivity. Qed.


(** C3 fails on the code.  On the example of the docstring the first
    element, the number 1, is not iterable, so it is handed to
    [recursive_flatten], whose [for] raises [TypeError]; the container keeps
    its nested elements, where the description promises
    [[1, 2, 3, 4, 5, 6, 7]]. *)
Theorem disentangle_docstring_example_fails (depth : nat) :
  let nested :=
    [VInt 1; VList [VInt 2; VInt 3];
     VList [VInt 4; VList [VInt 5; VInt 6]]; VInt 7] in
  disentangle (S (S depth)) (new_circulis nested)
  = (inl TypeError, new_circulis nested)
  ∧ flatten (VList nested) = VInt <$> [1; 2; 3; 4; 5; 6; 7]%Z.
Proof. split; reflexivity. Qed.

(** Where [disentangle] does return, nothing has been flattened: a
    container of lists and tuples comes back as it was. *)
Lemma disentangle_keeps_nested (depth : nat) (self : circulis) :
  Forall (λ v, is_iterable v && negb (is_str v) = true) (circulist self) →
  disentangle (S depth) self = (inr (), self).
Proof.
  destruct self as [d nm]. cbn [circulist]. intros Hall.
  unfold disentangle, set_circulist. cbn [recursive_flatten py_iter circulist name].
  enough (∀ store,
    (fix loop (elements store_list : list value) {struct elements} :=
       match elements with
       | [] => inr store_list
       | items :: rest =>
           if is_iterable items && negb (is_str items)
           then loop rest (store_list ++ [items])
           else
             match recursive_flatten depth items store_list with
             | inl e => inl e
             | inr store_list' => loop rest store_list'
             end
       end) d store = inr (store ++ d)) as -> by done.
  induction Hall as [|x d Hx _ IH]; intros store.
  - by rewrite app_nil_r.
  - rewrite Hx, IH, <- app_assoc. done.
Qed.

(** A string of one character or more sends [recursive_flatten] into
    itself without end: whatever depth is available, it is used up. *)
Lemma recursive_flatten_character (depth : nat) a store :
  recursive_flatten depth (VStr (String a EmptyString)) store = inl RecursionError.
Proof.
  revert store. induction depth as [|depth IH]; intros store; [done|].
  cbn [recursive_flatten py_iter chars is_iterable is_str andb negb].
  by rewrite IH.
Qed.

Lemma disentangle_string_recursion (depth : nat) :
  disentangle depth (new_circulis [VStr "ab"])
  = (inl RecursionError, new_circulis [VStr "ab"]).
Proof.
  unfold disentangle. destruct depth as [|[|depth]]; [done..|].
  cbn [recursive_flatten py_iter circulist new_circulis is_iterable is_str
       andb negb chars].
  by rewrite recursive_flatten_character.
Qed.

End TransformFacts.

Module RandomizationFacts.
Import Randomization.

Example shuffle_by_constant_draws :
  shuffle (λ _, 1) (new_circulis (VInt <$> [1; 2; 3; 4]%Z))
  = (inr (), new_circulis (VInt <$> [2; 1; 4; 3]%Z)).
Proof. reflexivity. Qed.

Lemma randint_range draw a b : a ≤ b → a ≤ randint draw a b ≤ b.
Proof.
  intros Hab. unfold randint.
  pose proof (Nat.mod_upper_bound draw (S (b - a)) ltac:(lia)). lia.
Qed.

(** Every target from [a] to [b] is the outcome of some draw. *)
Lemma randint_onto a b target :
  a ≤ target ≤ b → ∃ draw, randint draw a b = target.
Proof.
  intros Hab. exists (target - a). unfold randint.
  rewrite Nat.mod_small by lia. lia.
Qed.

(** Exchanging two positions permutes the list. *)
Lemma exchange_Permutation (d : list value) i j di dj :
  d !! i = Some di → d !! j = Some dj →
  <[j := di]> (<[i := dj]> d) ≡ₚ d.
Proof.
  intros Hi Hj.
  pose proof (lookup_lt_Some _ _ _ Hi) as Hil.
  pose proof (lookup_lt_Some _ _ _ Hj) as Hjl.
  apply Permutation_inj. split; [by rewrite !length_insert|].
  exists (λ k, if decide (k = i) then j else if decide (k = j) then i else k).
  split.
  - intros k1 k2 Hk. repeat case_decide; lia.
  - intros k. rewrite !list_lookup_insert, !length_insert.
    repeat case_decide; simplify_eq; try done; try lia.
    all: destruct_and?; simplify_eq; try done; try lia.
Qed.

Lemma swap_Permutation nm d i j :
  i < length d → j < length d →
  ∃ d', swap i j (Circulis d nm) = (inr (), Circulis d' nm)
        ∧ d' ≡ₚ d ∧ length d' = length d.
Proof.
  intros Hi Hj.
  destruct (lookup_lt_is_Some_2 d i Hi) as [di Hdi].
  destruct (lookup_lt_is_Some_2 d j Hj) as [dj Hdj].
  exists (<[j := di]> (<[i := dj]> d)).
  split; [|split; [by eapply exchange_Permutation|by rewrite !length_insert]].
  unfold swap.
  erewrite bind_returns by (unfold deque_getitem; cbn; by rewrite Hdj).
  erewrite bind_returns by (unfold deque_getitem; cbn; by rewrite Hdi).
  erewrite bind_returns
    by (unfold deque_setitem; cbn; by rewrite bool_decide_eq_true_2).
  unfold deque_setitem, set_circulist. cbn [circulist name].
  by rewrite bool_decide_eq_true_2 by (by rewrite length_insert).
Qed.

Lemma shuffle_loop_Permutation draws nm indices : ∀ swapped d,
  Forall (λ i, i < length d) indices →
  ∃ d', shuffle_loop draws (length d) indices swapped (Circulis d nm)
        = (inr (), Circulis d' nm)
        ∧ d' ≡ₚ d.
Proof.
  induction indices as [|index rest IH]; intros swapped d Hall.
  - by exists d.
  - apply Forall_cons in Hall as [Hindex Hrest]. cbn [shuffle_loop].
    case_bool_decide; [by apply IH|].
    pose proof (randint_range (draws (length swapped)) index (length d - 1)
                  ltac:(lia)) as Hswap.
    destruct (swap_Permutation nm d index
                (randint (draws (length swapped)) index (length d - 1)))
      as (d1 & Hrun & Hperm & Hlen); [lia..|].
    rewrite (bind_returns _ _ _ _ _ Hrun).
    destruct (IH (swapped ++ [randint (draws (length swapped)) index (length d - 1)]) d1)
      as (d' & Hloop & Hperm').
    { by rewrite Hlen. }
    rewrite Hlen in Hloop. exists d'. split; [done|]. by rewrite Hperm'.
Qed.

(** C7: whatever the random swap targets are, [shuffle] returns normally
    and the container holds the same elements with the same numbers of
    occurrences as before, in some order (and keeps its name). *)
Theorem shuffle_preserves_multiset (draws : nat → nat) (self : circulis) :
  ∃ self', shuffle draws self = (inr (), self')
           ∧ circulist self' ≡ₚ circulist self
           ∧ name self' = name self.
Proof.
  destruct self as [d nm]. unfold shuffle. cbn [circulist name].
  case_bool_decide; [by eexists|].
  destruct (shuffle_loop_Permutation draws nm (seq 0 (length d)) [] d)
    as (d' & -> & Hperm).
  { apply Forall_forall. intros i Hi%elem_of_seq. lia. }
  by eexists.
Qed.

End RandomizationFacts.

(** ** Failed calls and the state they leave *)

Module FailurePolicyFacts.
Import SequenceCore BulkMutation Transform.












End FailurePolicyFacts.

Module SetAlgebraFacts.
Import SetAlgebra.

Example difference_example :
  __sub__ (new_circulis (VInt <$> [1; 2; 3]%Z)) (OValue (VList (VInt <$> [2; 3; 4]%Z)))
  = inr (new_circulis [VInt 1]).
Proof. reflexivity. Qed.

(** **** [==] is an equivalence on the values of the model *)

Lemma all2_refl {A} (eqb : A → A → bool) l :
  Forall (λ x, eqb x x = true) l → all2 eqb l l = true.
Proof. induction 1 as [|x l Hx _ IH]; [done|]. cbn. by rewrite Hx, IH. Qed.

Lemma all2_sym {A} (eqb : A → A → bool) l : ∀ m,
  Forall (λ x, ∀ y, eqb x y = eqb y x) l → all2 eqb l m = all2 eqb m l.
Proof.
  induction l as [|x l IH]; intros [|y m] Hall; try done.
  apply Forall_cons in Hall as [Hx Hl]. cbn. by rewrite Hx, IH.
Qed.

Lemma all2_trans {A} (eqb : A → A → bool) l : ∀ m n,
  Forall (λ x, ∀ y z, eqb x y = true → eqb y z = true → eqb x z = true) l →
  all2 eqb l m = true → all2 eqb m n = true → all2 eqb l n = true.
Proof.
  induction l as [|x l IH]; intros [|y m] [|z n] Hall; try done.
  apply Forall_cons in Hall as [Hx Hl]. cbn.
  rewrite !andb_true_iff. intros [??] [??]. split; [by eapply Hx|by eapply IH].
Qed.

Lemma py_eqb_refl v : py_eqb v v = true.
Proof.
  induction v as [|b|z|s|l IH|l IH] using value_nested_ind; cbn.
  - done.
  - apply Z.eqb_refl.
  - apply Z.eqb_refl.
  - apply String.eqb_refl.
  - by apply all2_refl.
  - by apply all2_refl.
Qed.

Lemma py_eqb_sym a : ∀ b, py_eqb a b = py_eqb b a.
Proof.
  induction a as [|x|x|s|l IH|l IH] using value_nested_ind; intros [|y|y|t|m|m];
    cbn; try done; try apply Z.eqb_sym.
  - apply String.eqb_sym.
  - by apply all2_sym.
  - by apply all2_sym.
Qed.

Lemma py_eqb_trans a : ∀ b c,
  py_eqb a b = true → py_eqb b c = true → py_eqb a c = true.
Proof.
  induction a as [|x|x|s|l IH|l IH] using value_nested_ind;
    intros [|y|y|t|m|m] [|z|z|u|n|n]; cbn; try done;
    rewrite ?Z.eqb_eq, ?String.eqb_eq; try congruence.
  - by apply all2_trans.
  - by apply all2_trans.
Qed.

(** **** Sets *)

Lemma set_contains_spec s k :
  set_contains s k = true ↔ ∃ x, x ∈ s ∧ py_eqb k x = true.
Proof.
  unfold set_contains. rewrite existsb_exists.
  by setoid_rewrite <- list_elem_of_In.
Qed.

Lemma set_contains_false s k :
  set_contains s k = false ↔ ∀ x, x ∈ s → py_eqb k x = false.
Proof.
  rewrite <- not_true_iff_false, set_contains_spec. split.
  - intros Hno x Hx. apply not_true_iff_false. intros Heq. apply Hno. eauto.
  - intros Hall (x & Hx & Heq). by rewrite Hall in Heq.
Qed.

(** Equal keys are in the same sets. *)
Lemma set_contains_proper s k k' :
  py_eqb k k' = true → set_contains s k = set_contains s k'.
Proof.
  intros Heq. apply eq_true_iff_eq. rewrite !set_contains_spec.
  split; intros (x & Hx & Hkx); exists x; (split; [done|]).
  - eapply py_eqb_trans; [|done]. by rewrite py_eqb_sym.
  - by eapply py_eqb_trans.
Qed.

Lemma distinct_snoc s k :
  distinct s → set_contains s k = false → distinct (s ++ [k]).
Proof.
  intros Hs Hk. induction s as [|x s IH]; [done|].
  destruct Hs as [Hx Hs]. cbn. split.
  - unfold set_contains in *. rewrite existsb_app. cbn in *.
    apply orb_false_iff in Hk as [Hkx Hk]. rewrite Hx, py_eqb_sym, Hkx. done.
  - apply IH; [done|]. unfold set_contains in *. cbn in Hk.
    by apply orb_false_iff in Hk as [_ Hk].
Qed.

Lemma distinct_filter (P : value → Prop) `{∀ x, Decision (P x)} s :
  distinct s → distinct (filter P s).
Proof.
  induction s as [|x s IH]; [done|]. intros [Hx Hs]. cbn.
  unfold filter in *. cbn. case_decide; [|by apply IH].
  cbn. split; [|by apply IH].
  apply set_contains_false. intros y Hy%list_elem_of_filter.
  rewrite set_contains_false in Hx. apply Hx. tauto.
Qed.

(** What [set_add_all] builds from [s] and the keys it is given. *)
Lemma set_add_all_spec keys : ∀ s s',
  set_add_all s keys = inr s' →
  (∀ k, k ∈ s' → k ∈ s ∨ k ∈ keys)
  ∧ (∀ k, k ∈ s ∨ k ∈ keys → set_contains s' k = true)
  ∧ (distinct s → distinct s').
Proof.
  induction keys as [|k keys IH]; intros s s' Hrun.
  - cbn in Hrun. injection Hrun as <-. split; [tauto|]. split; [|done].
    intros k [Hk|Hk%elem_of_nil]; [|done].
    apply set_contains_spec. exists k. split; [done|apply py_eqb_refl].
  - cbn [set_add_all] in Hrun. unfold set_add in Hrun.
    destruct (py_hashable k); [|done].
    apply IH in Hrun as (Hfrom & Hall & Hdistinct).
    split; [|split].
    + intros x Hx. destruct (Hfrom x Hx) as [Hs|Hkeys].
      * destruct (set_contains s k); [by left|].
        apply elem_of_app in Hs as [?|Hs%list_elem_of_singleton]; [by left|].
        subst x. right. left.
      * right. by right.
    + intros x [Hx|[Hx|Hx]%elem_of_cons].
      * apply Hall. left. destruct (set_contains s k); [done|].
        apply elem_of_app. by left.
      * subst k. destruct (set_contains s x) eqn:Hin.
        -- apply set_contains_spec in Hin as (y & Hy & Hxy).
           rewrite (set_contains_proper _ _ _ Hxy). apply Hall. by left.
        -- apply Hall. left. apply elem_of_app. right. left.
      * apply Hall. by right.
    + intros Hs. apply Hdistinct.
      destruct (set_contains s k) eqn:Hin; [done|]. by apply distinct_snoc.
Qed.

Lemma encrypt_to_set_spec object s :
  encrypt_to_set object = inr s →
  (∀ k, k ∈ s → ∃ a, a ∈ object ∧ k = encrypt_hashify a)
  ∧ (∀ a, a ∈ object → set_contains s (encrypt_hashify a) = true)
  ∧ distinct s.
Proof.
  intros (Hfrom & Hall & Hdistinct)%set_add_all_spec. split; [|split].
  - intros k [Hk%elem_of_nil|Hk%list_elem_of_fmap]%Hfrom; [done|].
    destruct Hk as (a & -> & Ha). eauto.
  - intros a Ha. apply Hall. right. by apply list_elem_of_fmap_2.
  - by apply Hdistinct.
Qed.

Lemma set_add_all_returns keys : ∀ s,
  Forall (λ k, py_hashable k = true) keys → ∃ s', set_add_all s keys = inr s'.
Proof.
  induction keys as [|k keys IH]; intros s Hall; [by eexists|].
  apply Forall_cons in Hall as [Hk Hkeys]. cbn [set_add_all]. unfold set_add.
  rewrite Hk. by apply IH.
Qed.

(** [A - B] returns as soon as [B] is a recognised operand and every
    canonical key on either side can be hashed. *)
Lemma difference_returns (self : circulis) (other : operand) :
  encrypt_list_check other = inr () →
  Forall (λ a, py_hashable (encrypt_hashify a) = true) (circulist self) →
  Forall (λ b, py_hashable (encrypt_hashify b) = true) (elements other) →
  ∃ result, __sub__ self other = inr result.
Proof.
  intros Hcheck Hself Hother. unfold __sub__, encrypt_to_set. rewrite Hcheck.
  destruct (set_add_all_returns (encrypt_hashify <$> circulist self) [])
    as [first ->]; [by apply Forall_fmap|].
  destruct (set_add_all_returns (encrypt_hashify <$> elements other) [])
    as [second ->]; [by apply Forall_fmap|].
  by eexists.
Qed.

(** C5, as amended: when [A - B] returns, it returns a new container
    (under the default name) that holds the canonical keys of the elements
    of [A], not the elements themselves: each of its elements is the
    canonical key of an element of [A] and equals no canonical key of an
    element of [B]; every element of [A] whose key equals no key of [B] has
    its key (up to [==]) in the result; and no two elements of the result
    are equal.  The order of the result is not specified. *)
Theorem difference_holds_canonical_keys (self : circulis) (other : operand)
    (result : circulis) :
  __sub__ self other = inr result →
  encrypt_list_check other = inr ()
  ∧ name result = anonymous
  ∧ (∀ k, k ∈ circulist result →
       (∃ a, a ∈ circulist self ∧ k = encrypt_hashify a)
       ∧ ∀ b, b ∈ elements other → py_eqb k (encrypt_hashify b) = false)
  ∧ (∀ a, a ∈ circulist self →
       (∀ b, b ∈ elements other →
          py_eqb (encrypt_hashify a) (encrypt_hashify b) = false) →
       ∃ k, k ∈ circulist result ∧ py_eqb (encrypt_hashify a) k = true)
  ∧ distinct (circulist result).
Proof.
  unfold __sub__. destruct (encrypt_list_check other) as [?|checked]; [done|].
  destruct checked.
  destruct (encrypt_to_set (circulist self)) as [|first] eqn:Hfirst; [done|].
  destruct (encrypt_to_set (elements other)) as [|second] eqn:Hsecond; [done|].
  intros [= <-]. cbn [circulist name new_circulis].
  apply encrypt_to_set_spec in Hfirst as (Hfrom1 & Hall1 & Hdistinct1).
  apply encrypt_to_set_spec in Hsecond as (Hfrom2 & Hall2 & Hdistinct2).
  split; [done|]. split; [done|]. unfold set_difference. split; [|split].
  - intros k [Hnot Hk]%list_elem_of_filter. split; [by apply Hfrom1|].
    intros b Hb. specialize (Hall2 b Hb).
    apply set_contains_spec in Hall2 as (k2 & Hk2 & Hbk2).
    rewrite set_contains_false in Hnot. specialize (Hnot k2 Hk2).
    apply not_true_iff_false. intros Hkb. apply not_true_iff_false in Hnot.
    apply Hnot. by eapply py_eqb_trans.
  - intros a Ha Hno. specialize (Hall1 a Ha).
    apply set_contains_spec in Hall1 as (k & Hk & Hak).
    exists k. split; [|done]. apply list_elem_of_filter. split; [|done].
    apply set_contains_false. intros k2 Hk2.
    destruct (Hfrom2 k2 Hk2) as (b & Hb & ->).
    apply not_true_iff_false. intros Hkb.
    specialize (Hno b Hb). apply not_true_iff_false in Hno. apply Hno.
    by eapply py_eqb_trans.
  - by apply distinct_filter.
Qed.

(** The difference of [[1, 2, 3]] and [[2, 3, 4]], with what the theorem
    says about it. *)
Lemma difference_holds_canonical_keys_witness :
  __sub__ (new_circulis (VInt <$> [1; 2; 3]%Z)) (OValue (VList (VInt <$> [2; 3; 4]%Z)))
  = inr (new_circulis [VInt 1])
  ∧ distinct [VInt 1].
Proof.
  split; [reflexivity|].
  exact (proj2 (proj2 (proj2 (proj2
    (difference_holds_canonical_keys
       (new_circulis (VInt <$> [1; 2; 3]%Z))
       (OValue (VList (VInt <$> [2; 3; 4]%Z)))
       (new_circulis [VInt 1]) eq_refl))))).
Defined.

(** C5 as stated promises the original elements of [A].  A list held by
    [A] comes back as a tuple, which is no element of [A]: a tuple never
    equals a list. *)
Lemma difference_returns_tuple_for_list :
  let self := new_circulis [VList [VInt 1; VInt 2]] in
  __sub__ self (OValue (VList []))
  = inr (new_circulis [VTuple [VInt 1; VInt 2]])
  ∧ (VTuple [VInt 1; VInt 2] ∉ circulist self)
  ∧ set_contains (circulist self) (VTuple [VInt 1; VInt 2]) = false.
Proof.
  split; [reflexivity|]. split; [|reflexivity].
  cbn. intros Hin%list_elem_of_singleton. discriminate.
Qed.

End SetAlgebraFacts.

Module PercentileFacts.
Import Percentile.

Example percentile_quarter :
  required_counts float_0_25 4 = Some (2, 2)%Z
  ∧ percentile float_0_25 [5; 5; 5; 9]%Z = Some (inr (NInt 5))
  ∧ percentile float_0_5 [3; 1; 2; 4]%Z = Some (inr (NInt 3))
  ∧ percentile float_0_5 [0; 0]%Z = Some (inr (NFloat float_0_01)).
Proof. vm_compute. done. Qed.

(** **** Candidates and counts *)








(** **** The search *)






End PercentileFacts.

(** ** Further properties of the sequence core *)

(** Decides the comparisons of string literals in the goal. *)
Ltac decide_literals :=
  repeat match goal with
         | |- context [String.eqb ?a ?b] =>
             let r := eval vm_compute in (String.eqb a b) in
             change (String.eqb a b) with r
         end;
  cbn [negb orb andb].

Module SequenceOpsFacts.
Import SequenceCore BulkMutation Transform SequenceOps.

Example rotate_examples :
  rotate (VInt 2) (new_circulis (ints [1; 2; 3; 4]%Z))
  = (inr (), new_circulis (ints [3; 4; 1; 2]%Z))
  ∧ rotate (VInt (-1)) (new_circulis (ints [3; 4; 1; 2]%Z))
  = (inr (), new_circulis (ints [4; 1; 2; 3]%Z)).
Proof. split; reflexivity. Qed.






(** **** Curtailing *)

Lemma repeat_popleft nm times : ∀ d,
  repeat_pop times deque_popleft (Circulis d nm)
  = if bool_decide (times ≤ length d)
    then (inr (), Circulis (drop times d) nm)
    else (inl IndexError, Circulis [] nm).
Proof.
  induction times as [|times IH]; intros d.
  - cbn. by rewrite bool_decide_eq_true_2 by lia.
  - cbn [repeat_pop]. destruct d as [|x d].
    + by rewrite bool_decide_eq_false_2 by (cbn; lia).
    + erewrite bind_returns by reflexivity.
      unfold set_circulist. cbn [circulist name length drop]. rewrite IH.
      by rewrite (bool_decide_ext (S times ≤ S (length d)) (times ≤ length d))
        by lia.
Qed.

Lemma deque_pop_snoc nm d x :
  deque_pop (Circulis (d ++ [x]) nm) = (inr x, Circulis d nm).
Proof.
  unfold deque_pop, set_circulist. cbn [circulist name].
  by rewrite reverse_snoc, reverse_involutive.
Qed.

Lemma repeat_pop_right nm times : ∀ d,
  repeat_pop times deque_pop (Circulis d nm)
  = if bool_decide (times ≤ length d)
    then (inr (), Circulis (take (length d - times) d) nm)
    else (inl IndexError, Circulis [] nm).
Proof.
  induction times as [|times IH]; intros d.
  - cbn [repeat_pop]. rewrite bool_decide_eq_true_2 by lia.
    by rewrite Nat.sub_0_r, take_ge by done.
  - cbn [repeat_pop]. destruct d as [|x d _] using rev_ind.
    + by rewrite bool_decide_eq_false_2 by (cbn; lia).
    + erewrite bind_returns by apply deque_pop_snoc. rewrite IH.
      rewrite length_app. cbn [length].
      destruct (decide (times ≤ length d)).
      * rewrite !bool_decide_eq_true_2 by lia.
        replace (length d + 1 - S times) with (length d - times) by lia.
        by rewrite take_app_le by lia.
      * by rewrite !bool_decide_eq_false_2 by lia.
Qed.

(** X2.  On a non-empty container [curtail(amount)] with a positive amount
    no larger than the length drops that many elements from the chosen
    end; with a larger amount it empties the container and then raises
    [IndexError]. *)
Theorem curtail_drops_or_empties (self : circulis) (amount : Z) :
  circulist self ≠ [] → (0 < amount)%Z →
  curtail (VInt amount) "left" self
  = (if bool_decide (amount <= Z.of_nat (length (circulist self)))%Z
     then (inr (), set_circulist self (drop (Z.to_nat amount) (circulist self)))
     else (inl IndexError, set_circulist self []))
  ∧ curtail (VInt amount) "right" self
  = (if bool_decide (amount <= Z.of_nat (length (circulist self)))%Z
     then (inr (), set_circulist self
                     (take (length (circulist self) - Z.to_nat amount)
                        (circulist self)))
     else (inl IndexError, set_circulist self [])).
Proof.
  destruct self as [d nm]. cbn [circulist]. intros Hne Hpos.
  unfold curtail, encrypt_is_empty, set_circulist. cbn [circulist name as_int].
  destruct d as [|x d]; [done|].
  rewrite (proj2 (Z.leb_gt amount 0)) by lia.
  change (String.eqb "left" "left") with true.
  change (String.eqb "right" "left") with false.
  change (String.eqb "right" "right") with true. cbn match.
  rewrite repeat_popleft, repeat_pop_right.
  split; repeat case_bool_decide; try done; lia.
Qed.

Lemma curtail_drops_or_empties_witness :
  curtail (VInt 2) "left" (new_circulis (ints [1; 2; 3; 4; 5]%Z))
  = (inr (), new_circulis (ints [3; 4; 5]%Z))
  ∧ curtail (VInt 9) "right" (new_circulis (ints [1; 2; 3]%Z))
  = (inl IndexError, new_circulis []).
Proof.
  split.
  - exact (proj1 (curtail_drops_or_empties
                    (new_circulis (ints [1; 2; 3; 4; 5]%Z)) 2
                    ltac:(discriminate) ltac:(lia))).
  - exact (proj2 (curtail_drops_or_empties
                    (new_circulis (ints [1; 2; 3]%Z)) 9
                    ltac:(discriminate) ltac:(lia))).
Defined.

(** **** Discarding *)

Lemma deque_remove_Some element d d' :
  deque_remove element d = Some d' →
  ∃ pre x post,
    d = pre ++ x :: post ∧ py_eqb x element = true
    ∧ Forall (λ y, py_eqb y element = false) pre ∧ d' = pre ++ post.
Proof.
  revert d'. induction d as [|y d IH]; intros d' Hrun; [done|].
  cbn in Hrun. destruct (py_eqb y element) eqn:Hy.
  - injection Hrun as <-. by exists [], y, d.
  - destruct (deque_remove element d) as [d''|]; [|done].
    injection Hrun as <-.
    destruct (IH d'' eq_refl) as (pre & x & post & -> & Hx & Hpre & ->).
    exists (y :: pre), x, post. repeat split; [done|by constructor].
Qed.

Lemma deque_remove_None element d :
  deque_remove element d = None ↔ existsb (λ x, py_eqb x element) d = false.
Proof.
  induction d as [|y d IH]; [done|]. cbn.
  destruct (py_eqb y element); [done|]. cbn.
  destruct (deque_remove element d); [|tauto].
  split; [done|]. intros Hno. apply IH in Hno. done.
Qed.

(** X3.  [discard(element)] succeeds exactly when [element in self]; it
    then removes the first element equal to [element] and nothing else;
    otherwise it raises [ValueError] and leaves the container alone. *)
Theorem discard_removes_first_match (self : circulis) (element : value) :
  if __contains__ self element
  then ∃ pre x post,
      circulist self = pre ++ x :: post
      ∧ py_eqb x element = true
      ∧ Forall (λ y, py_eqb y element = false) pre
      ∧ discard element self = (inr (), set_circulist self (pre ++ post))
  else discard element self = (inl ValueError, self).
Proof.
  destruct self as [d nm]. unfold __contains__, discard. cbn [circulist].
  destruct (existsb _ d) eqn:Hin.
  - destruct (deque_remove element d) as [d'|] eqn:Hrun.
    + destruct (deque_remove_Some _ _ _ Hrun) as (pre & x & post & -> & Hx & Hpre & ->).
      exists pre, x, post. repeat split; try done.
      rewrite bool_decide_eq_false_2; [done|].
      rewrite length_app. cbn. lia.
    + apply deque_remove_None in Hrun. congruence.
  - apply deque_remove_None in Hin. rewrite Hin. by case_bool_decide.
Qed.

(** **** Appending and popping *)






(** **** Reading [pair], then [voidfilter] *)

Lemma filter_all_pass (P : value → Prop) `{∀ x, Decision (P x)} l :
  Forall P l → filter P l = l.
Proof.
  induction 1 as [|x l Hx _ IH]; [done|].
  by rewrite filter_cons_True, IH.
Qed.



(** **** Indexing *)

Lemma deque_position_bound len i j :
  deque_position len i = Some j → j < len.
Proof.
  unfold deque_position.
  destruct (_ && _)%bool eqn:Hin; [|done].
  apply andb_true_iff in Hin as [?%Z.leb_le ?%Z.ltb_lt].
  intros [= <-]. lia.
Qed.

(** X7.  For an index within the container, negative ones counting from
    the right, [self[i] = v] followed by [self[i]] returns [v]; the
    assignment changes that one position and nothing else.  For an index
    outside, both raise [IndexError] and the container stays as it is. *)
Theorem setitem_then_getitem (self : circulis) (i : Z) (v : value) :
  match deque_position (length (circulist self)) i with
  | Some j =>
      ∃ assigned, __setitem__ (VInt i) v self = (inr (), assigned)
        ∧ __getitem__ (VInt i) assigned = (inr v, assigned)
        ∧ name assigned = name self
        ∧ length (circulist assigned) = length (circulist self)
        ∧ ∀ k, k ≠ j → circulist assigned !! k = circulist self !! k
  | None =>
      __setitem__ (VInt i) v self = (inl IndexError, self)
      ∧ __getitem__ (VInt i) self = (inl IndexError, self)
  end.
Proof.
  destruct self as [d nm]. cbn [circulist].
  destruct (deque_position (length d) i) as [j|] eqn:Hpos.
  - pose proof (deque_position_bound _ _ _ Hpos) as Hj.
    unfold __setitem__, __getitem__, set_circulist. cbn [as_int circulist name].
    rewrite Hpos. eexists. split; [done|]. cbn [circulist name].
    rewrite length_insert, Hpos, list_lookup_insert_eq by done.
    repeat split. intros k Hk. by apply list_lookup_insert_ne.
  - unfold __setitem__, __getitem__. cbn [as_int circulist]. by rewrite Hpos.
Qed.



(** **** Mapping *)

Lemma comprehension_returns func d d' :
  comprehension func d = inr d' → Forall2 (λ x y, func x = inr y) d d'.
Proof.
  revert d'. induction d as [|x d IH]; intros d' Hrun.
  - injection Hrun as <-. constructor.
  - cbn in Hrun. destruct (func x) as [|y] eqn:Hx; [done|].
    destruct (comprehension func d) as [|ys]; [done|].
    injection Hrun as <-. constructor; [done|by apply IH].
Qed.

Lemma comprehension_raises func d e :
  comprehension func d = inl e →
  ∃ pre x post, d = pre ++ x :: post ∧ func x = inl e
    ∧ Forall (λ y, ∃ z, func y = inr z) pre.
Proof.
  induction d as [|x d IH]; intros Hrun; [done|].
  cbn in Hrun. destruct (func x) as [e'|y] eqn:Hx.
  - injection Hrun as ->. by exists [], x, d.
  - destruct (comprehension func d) as [e'|ys]; [|done].
    injection Hrun as ->.
    destruct (IH eq_refl) as (pre & x' & post & -> & Hx' & Hpre).
    exists (x :: pre), x', post. repeat split; [done|]. constructor; eauto.
Qed.

(** X9.  [map(func)] is all or nothing.  When it returns, every element
    has been replaced by what [func] returns for it, in place and in
    order; when [func] raises on some element, [map] raises the same
    exception, the one of the first element that fails, and no element of
    the container has changed. *)
Theorem map_all_or_nothing (func : value → exn + value) (self : circulis) :
  match (map func self).1 with
  | inr _ =>
      Forall2 (λ x y, func x = inr y)
        (circulist self) (circulist (map func self).2)
      ∧ name (map func self).2 = name self
  | inl e =>
      (map func self).2 = self
      ∧ ∃ pre x post, circulist self = pre ++ x :: post ∧ func x = inl e
          ∧ Forall (λ y, ∃ z, func y = inr z) pre
  end.
Proof.
  destruct self as [d nm]. unfold map, encrypt_is_empty. cbn [circulist].
  destruct d as [|x d]; [by split; [constructor|]|].
  destruct (comprehension func (x :: d)) as [e|d'] eqn:Hrun; cbn [fst snd].
  - split; [done|]. by apply comprehension_raises.
  - split; [|done]. by apply comprehension_returns.
Qed.

End SequenceOpsFacts.

Module BulkMutationEdgeFacts.
Import BulkMutation.

(** X10.  On a container of one element [remove] with non-negative
    arguments always fails and leaves the element where it is: [remove(0)]
    raises [IndexError], its default step of 1 being no smaller than the
    length, and a step of 0 is turned down by [range]. *)
Theorem remove_fails_on_singleton (x : value) (nm : string)
    (start stop step : value) :
  is_negative start = false → is_negative stop = false →
  is_negative step = false →
  (∃ e, remove start stop step (Circulis [x] nm) = (inl e, Circulis [x] nm))
  ∧ remove (VInt 0) VNone (VInt 1) (Circulis [x] nm)
    = (inl IndexError, Circulis [x] nm).
Proof.
  intros Hstart Hstop Hstep. split; [|done].
  unfold remove, encrypt_is_empty. cbn [circulist length].
  destruct (any_negative _ _ _) as [e|_]; [by eexists|].
  assert (is_negative (if is_none stop then start else stop) = false) as Hstop'
    by (by destruct (is_none stop)).
  revert Hstop'. generalize (if is_none stop then start else stop).
  intros stop' Hstop'. unfold is_negative in *.
  destruct (as_int start) as [za|]; [|by eexists].
  destruct (as_int stop') as [zb|]; [|by eexists].
  destruct (as_int step) as [zc|]; [|by eexists].
  apply Z.ltb_ge in Hstart, Hstop', Hstep.
  destruct (_ || _ || _)%bool eqn:Hbounds; [by eexists|].
  apply orb_false_iff in Hbounds as [[Ha Hb]%orb_false_iff Hc].
  apply Z.leb_gt in Ha, Hb, Hc.
  assert (zc = 0%Z) as -> by lia. cbn. by eexists.
Qed.

Lemma remove_fails_on_singleton_witness :
  remove (VInt 0) (VInt 0) (VInt 0) (new_circulis [VStr "only"])
  = (inl ValueError, new_circulis [VStr "only"])
  ∧ remove (VInt 0) VNone (VInt 1) (new_circulis [VStr "only"])
  = (inl IndexError, new_circulis [VStr "only"]).
Proof.
  split; [reflexivity|].
  exact (proj2 (remove_fails_on_singleton (VStr "only") anonymous
                  (VInt 0) (VInt 0) (VInt 0) eq_refl eq_refl eq_refl)).
Defined.





End BulkMutationEdgeFacts.

Module ChunkingFacts.
Import Chunking.

Example fragmentize_examples :
  fragmentize (VInt 3) (new_circulis (ints [1; 2; 3; 4; 5; 6; 7]%Z))
  = inr [ints [1; 2; 3]%Z; ints [4; 5; 6]%Z; ints [7]%Z]
  ∧ fragmentize (VInt 0) (new_circulis (ints [1; 2]%Z)) = inl ValueError
  ∧ fragmentize (VInt (-2)) (new_circulis (ints [1; 2]%Z)) = inr [].
Proof. repeat split. Qed.

Lemma runs_concat size n : ∀ d,
  length d ≤ n * size → concat (run d size <$> seq 0 n) = d.
Proof.
  induction n as [|n IH]; intros d Hlen.
  - by destruct d; [|cbn in Hlen; lia].
  - cbn [seq fmap list_fmap concat]. rewrite <- fmap_S_seq, <- list_fmap_compose.
    rewrite (list_fmap_ext _ (run (drop size d) size) (seq 0 n)).
    + rewrite IH by (rewrite length_drop; lia).
      unfold run. cbn [Nat.mul drop]. apply take_drop.
    + intros _ k _. unfold run. cbn. by rewrite drop_drop.
Qed.

Lemma run_length d size k : length (run d size k) = size `min` (length d - k * size).
Proof. unfold run. by rewrite length_take, length_drop. Qed.

(** The indices [range(0, len, size)] for a positive [size]: one for each
    run that is not empty. *)
Lemma range_runs (len : nat) (size : Z) :
  (0 < size)%Z →
  let n := range_len 0 (Z.of_nat len) size in
  range_elems 0 size n = (λ k : nat, Z.of_nat (k * Z.to_nat size)) <$> seq 0 n
  ∧ len ≤ n * Z.to_nat size
  ∧ (∀ k, k < n → k * Z.to_nat size < len)
  ∧ Z.of_nat n = ((Z.of_nat len + size - 1) / size)%Z.
Proof.
  intros Hsize n. split; [|split; [|split]].
  - unfold range_elems. apply list_fmap_ext. intros _ k _. lia.
  - unfold n, range_len. rewrite (proj2 (Z.ltb_lt 0 size)) by done.
    destruct (0 <? Z.of_nat len)%Z eqn:Hlen;
      [apply Z.ltb_lt in Hlen|apply Z.ltb_ge in Hlen; lia].
    pose proof (Z.div_mod (Z.of_nat len - 0 - 1) size ltac:(lia)).
    pose proof (Z.mod_pos_bound (Z.of_nat len - 0 - 1) size Hsize).
    assert (0 <= (Z.of_nat len - 0 - 1) / size)%Z by (apply Z.div_pos; lia).
    nia.
  - intros k Hk. unfold n, range_len in Hk.
    rewrite (proj2 (Z.ltb_lt 0 size)) in Hk by done.
    destruct (0 <? Z.of_nat len)%Z eqn:Hlen;
      [apply Z.ltb_lt in Hlen|cbn in Hk; lia].
    pose proof (Z.mul_div_le (Z.of_nat len - 0 - 1) size Hsize).
    assert (0 <= (Z.of_nat len - 0 - 1) / size)%Z by (apply Z.div_pos; lia).
    nia.
  - unfold n, range_len. rewrite (proj2 (Z.ltb_lt 0 size)) by done.
    destruct (0 <? Z.of_nat len)%Z eqn:Hlen.
    + apply Z.ltb_lt in Hlen.
      assert (0 <= (Z.of_nat len - 0 - 1) / size)%Z by (apply Z.div_pos; lia).
      rewrite Z2Nat.id by lia.
      replace (Z.of_nat len + size - 1)%Z
        with (Z.of_nat len - 0 - 1 + 1 * size)%Z by lia.
      by rewrite Z.div_add by lia.
    + apply Z.ltb_ge in Hlen. assert (len = 0) as -> by lia.
      cbn [Z.of_nat Z.to_nat]. rewrite Z.div_small; lia.
Qed.

(** X12.  For a positive size [fragmentize] returns the container cut into
    consecutive runs: put end to end the fragments give the container
    back, none is empty, all but the last have exactly [size] elements,
    the last has at most [size], and there are [ceil(length / size)] of
    them. *)
Theorem fragmentize_cuts_into_runs (self : circulis) (size : Z) :
  (0 < size)%Z →
  ∃ fragments, fragmentize (VInt size) self = inr fragments
    ∧ concat fragments = circulist self
    ∧ Forall (λ fragment, 0 < length fragment ≤ Z.to_nat size) fragments
    ∧ (∀ i fragment, fragments !! i = Some fragment →
         S i < length fragments → length fragment = Z.to_nat size)
    ∧ Z.of_nat (length fragments)
      = ((Z.of_nat (length (circulist self)) + size - 1) / size)%Z.
Proof.
  intros Hsize. destruct self as [d nm].
  unfold fragmentize, py_range. cbn [as_int circulist].
  rewrite (proj2 (Z.eqb_neq size 0)) by lia.
  destruct (range_runs (length d) size Hsize) as (Hrange & Hcover & Hfull & Hcount).
  set (n := range_len 0 (Z.of_nat (length d)) size) in *.
  assert ((λ index, slice d index size) <$> range_elems 0 size n
          = run d (Z.to_nat size) <$> seq 0 n) as Hruns.
  { rewrite Hrange, <- list_fmap_compose. apply list_fmap_ext.
    intros _ k _. unfold slice, run. cbn. by rewrite Nat2Z.id. }
  eexists. split; [done|]. rewrite Hruns. split; [|split; [|split]].
  - by apply runs_concat.
  - apply Forall_fmap, Forall_forall. intros k Hk%elem_of_seq. cbn.
    rewrite run_length. specialize (Hfull k ltac:(lia)). lia.
  - intros i fragment Hi Hlast. rewrite length_fmap, length_seq in Hlast.
    rewrite list_lookup_fmap, lookup_seq_lt in Hi by lia.
    injection Hi as <-. rewrite run_length. cbn [Nat.add].
    specialize (Hfull (S i) Hlast). lia.
  - by rewrite length_fmap, length_seq.
Qed.

Lemma fragmentize_cuts_into_runs_witness :
  ∃ fragments,
    fragmentize (VInt 3) (new_circulis (ints [1; 2; 3; 4; 5; 6; 7]%Z)) = inr fragments
    ∧ concat fragments = ints [1; 2; 3; 4; 5; 6; 7]%Z
    ∧ Z.of_nat (length fragments) = 3%Z.
Proof.
  destruct (fragmentize_cuts_into_runs
              (new_circulis (ints [1; 2; 3; 4; 5; 6; 7]%Z)) 3 ltac:(lia))
    as (fragments & Hrun & Hconcat & _ & _ & Hcount).
  exists fragments. by repeat split.
Defined.

(** **** Reducing by groups *)

Example reduce_examples :
  let add3 := λ result items,
    match items with
    | [VInt a; VInt b] =>
        match result with VInt r => inr (VInt (r + a + b)) | _ => inl TypeError end
    | _ => inl TypeError
    end in
  reduce 3 add3 (VInt 0) "int" (new_circulis (ints [1; 2; 3; 4; 5]%Z)) = inr (VInt 10)
  ∧ reduce 2 add3 (VInt 0) "int" (new_circulis (ints [1; 2]%Z)) = inl ValueError
  ∧ reduce 3 add3 (VStr "0") "int" (new_circulis (ints [1; 2]%Z)) = inl ValueError.
Proof. repeat split. Qed.

Lemma reduce_loop_runs (f : value → list value → value) d size n :
  0 < size → length d ≤ n * size →
  ∀ m k0 result, k0 + m = n →
  reduce_loop (λ r items, inr (f r items)) size d
    ((λ k : nat, Z.of_nat (k * size)) <$> seq k0 m) result
  = inr (foldl f result (run d size <$> seq k0 (length d / size - k0))).
Proof.
  intros Hsize Hcover.
  pose proof (Nat.div_mod_eq (length d) size) as Hdiv.
  pose proof (Nat.mod_upper_bound (length d) size ltac:(lia)) as Hmod.
  induction m as [|m IH]; intros k0 result Hn.
  - assert (length d / size - k0 = 0) as -> by nia. done.
  - cbn [seq fmap list_fmap reduce_loop].
    assert (slice d (Z.of_nat (k0 * size)) (Z.of_nat size) = run d size k0) as ->
      by (unfold slice, run; by rewrite !Nat2Z.id).
    rewrite run_length.
    destruct (decide (k0 < length d / size)) as [Hfull|Hpartial].
    + rewrite (proj2 (Nat.eqb_eq _ size)) by nia. cbn [negb].
      rewrite IH by lia.
      replace (length d / size - k0) with (S (length d / size - S k0)) by lia.
      done.
    + rewrite (proj2 (Nat.eqb_neq _ size)) by nia. cbn [negb].
      by replace (length d / size - k0) with 0 by lia.
Qed.

(** X13.  [reduce] rejects a function of two parameters or fewer.  With
    [p >= 3] parameters it folds the function over the successive groups
    of [p - 1] elements, the running result first, and a last group that
    is not full never reaches the function: the elements after the last
    full group have no effect on the result. *)
Theorem reduce_folds_full_groups (self : circulis) (parameters : nat)
    (f : value → list value → value) (start : value) :
  circulist self ≠ [] →
  (3 ≤ parameters →
     reduce parameters (λ result items, inr (f result items)) start "any" self
     = inr (foldl f start
              (run (circulist self) (parameters - 1)
                 <$> seq 0 (length (circulist self) / (parameters - 1)))))
  ∧ (parameters ≤ 2 → ∀ function type,
       reduce parameters function start type self = inl ValueError).
Proof.
  destruct self as [d nm]. cbn [circulist]. intros Hne.
  unfold reduce, encrypt_is_empty. cbn [circulist].
  destruct d as [|x d']; [done|]. set (d := x :: d'). split.
  - intros Hp. rewrite (proj2 (Nat.leb_gt parameters 2)) by lia.
    decide_literals. cbn [start_matches]. unfold start_matches. decide_literals.
    unfold py_range. rewrite (proj2 (Z.eqb_neq _ 0)) by lia.
    destruct (ChunkingFacts.range_runs (length d) (Z.of_nat (parameters - 1))
                ltac:(lia)) as (Hrange & Hcover & _ & _).
    rewrite Hrange, Nat2Z.id in *.
    set (n := range_len 0 (Z.of_nat (length d)) (Z.of_nat (parameters - 1))) in *.
    pose proof (reduce_loop_runs f d (parameters - 1) n ltac:(lia) Hcover
                  n 0 start eq_refl) as Hrun.
    by rewrite Nat.sub_0_r in Hrun.
  - intros Hp function type. by rewrite (proj2 (Nat.leb_le parameters 2)) by lia.
Qed.

Lemma reduce_folds_full_groups_witness :
  let join := λ result items, VList (result :: items) in
  reduce 3 (λ result items, inr (join result items)) (VInt 0) "any"
    (new_circulis (ints [1; 2; 3; 4; 5]%Z))
  = inr (VList [VList [VInt 0; VInt 1; VInt 2]; VInt 3; VInt 4]).
Proof.
  exact (proj1 (reduce_folds_full_groups
                  (new_circulis (ints [1; 2; 3; 4; 5]%Z)) 3
                  (λ result items, VList (result :: items)) (VInt 0)
                  ltac:(discriminate)) ltac:(lia)).
Defined.

End ChunkingFacts.

Module OperatorsFacts.
Import SetAlgebra Operators SetAlgebraFacts.

Example operator_examples :
  let a := new_circulis (ints [1; 2; 3]%Z) in
  let b := OValue (VList (ints [2; 3; 4]%Z)) in
  __or__ a b = inr (ints [1; 2; 3; 4]%Z)
  ∧ __and__ a b = inr (ints [2; 3]%Z)
  ∧ __xor__ a b = inr (ints [1; 4]%Z)
  ∧ __eq__ a (OValue (VTuple (ints [1; 2; 3]%Z))) = true
  ∧ __lt__ a b = inr true
  ∧ __mul__ a (VInt 2) = inr (new_circulis (ints [1; 2; 3; 1; 2; 3]%Z))
  ∧ __imul__ (VInt 2) a
    = (inr (), new_circulis (ints [1; 2; 3; 1; 2; 3; 1; 2; 3; 1; 2; 3]%Z)).
Proof. repeat split. Qed.

(** **** Comparisons *)

(** Sums of truth values do not order containers: the three below are
    compared by different rules. *)
Example comparison_is_not_transitive :
  let a := new_circulis [VInt 10] in
  let b := new_circulis [VStr "x"; VStr "y"] in
  let c := new_circulis (ints [1; 1; 1]%Z) in
  __lt__ a (OCirculis b) = inr true
  ∧ __lt__ b (OCirculis c) = inr true
  ∧ __lt__ a (OCirculis c) = inr false.
Proof. repeat split. Qed.


(** X15.  An operand that is no deque, container, list or tuple makes every
    comparison raise a [TypeError], while [==] answers [False]. *)
Theorem comparison_rejects_other_operands (a : circulis) (other : operand) :
  encrypt_list_check other = inl TypeError →
  __lt__ a other = inl TypeError ∧ __gt__ a other = inl TypeError
  ∧ __le__ a other = inl TypeError ∧ __ge__ a other = inl TypeError
  ∧ __eq__ a other = false.
Proof.
  intros Hcheck.
  unfold __lt__, __gt__, __le__, __ge__, encrypt_compare_lists, __eq__.
  by rewrite Hcheck.
Qed.

Lemma comparison_rejects_other_operands_witness :
  let a := new_circulis (ints [1; 2]%Z) in
  __lt__ a (OValue (VInt 3)) = inl TypeError
  ∧ __gt__ a (OValue (VInt 3)) = inl TypeError
  ∧ __le__ a (OValue (VInt 3)) = inl TypeError
  ∧ __ge__ a (OValue (VInt 3)) = inl TypeError
  ∧ __eq__ a (OValue (VInt 3)) = false.
Proof.
  exact (comparison_rejects_other_operands (new_circulis (ints [1; 2]%Z))
           (OValue (VInt 3)) eq_refl).
Defined.

(** **** Equality *)

Lemma list_eq_refl (l : list value) : all2 py_eqb l l = true.
Proof. apply all2_refl, Forall_forall. intros. apply py_eqb_refl. Qed.

Lemma list_eq_sym (l m : list value) : all2 py_eqb l m = all2 py_eqb m l.
Proof. apply all2_sym, Forall_forall. intros x _ y. apply py_eqb_sym. Qed.

Lemma list_eq_trans (l m n : list value) :
  all2 py_eqb l m = true → all2 py_eqb m n = true → all2 py_eqb l n = true.
Proof.
  apply all2_trans, Forall_forall. intros x _ y z. apply py_eqb_trans.
Qed.

(** X16.  [==] compares the elements in order and nothing else: neither the
    names of two containers nor the type of the operand matter, and on
    containers it is reflexive, symmetric and transitive. *)
Theorem eq_is_an_equivalence (a b c : circulis) :
  __eq__ a (OCirculis a) = true
  ∧ __eq__ a (OCirculis b) = __eq__ b (OCirculis a)
  ∧ (__eq__ a (OCirculis b) = true → __eq__ b (OCirculis c) = true →
     __eq__ a (OCirculis c) = true)
  ∧ __eq__ a (OCirculis b) = __eq__ a (ODeque (circulist b))
  ∧ __eq__ a (OCirculis b) = __eq__ a (OValue (VList (circulist b)))
  ∧ __eq__ a (OCirculis b) = __eq__ a (OValue (VTuple (circulist b))).
Proof.
  unfold __eq__. cbn [encrypt_list_check elements py_iter default].
  repeat split.
  - apply list_eq_refl.
  - apply list_eq_sym.
  - apply list_eq_trans.
Qed.

(** **** Repetition *)




(** **** Absolute values *)

(** X18.  [abs(self)] holds one non-negative integer for each element, and
    taking it twice changes nothing more. *)
Theorem abs_is_idempotent (self : circulis) :
  __abs__ (__abs__ self) = __abs__ self
  ∧ length (circulist (__abs__ self)) = length (circulist self)
  ∧ Forall (λ v, ∃ z, v = VInt z ∧ (0 ≤ z)%Z) (circulist (__abs__ self)).
Proof.
  unfold __abs__. cbn [circulist new_circulis]. split; [|split].
  - f_equal. rewrite <- list_fmap_compose. apply list_fmap_ext.
    intros _ v _. destruct v as [|[]|z|?|?|?]; cbn; try done.
    + by rewrite Z.abs_idemp.
    + by rewrite Z.abs_eq by lia.
    + by rewrite Z.abs_eq by lia.
    + by rewrite Z.abs_eq by lia.
  - by rewrite length_fmap.
  - apply Forall_fmap, Forall_forall. intros v _.
    destruct v as [|[]|z|?|?|?]; cbn; eexists; (split; [done|lia]).
Qed.

(** **** Numeric part and sum *)




(** **** Set operators *)

Lemma set_add_all_app k1 : ∀ s k2,
  set_add_all s (k1 ++ k2)
  = match set_add_all s k1 with
    | inl e => inl e
    | inr s' => set_add_all s' k2
    end.
Proof.
  induction k1 as [|k k1 IH]; intros s k2; [done|].
  cbn [app set_add_all]. destruct (set_add s k); [done|]. apply IH.
Qed.

Lemma set_add_all_fails keys : ∀ s s2 e,
  set_add_all s keys = inl e → set_add_all s2 keys = inl e.
Proof.
  induction keys as [|k keys IH]; intros s s2 e; [done|].
  cbn [set_add_all]. unfold set_add. destruct (py_hashable k); [|done].
  apply IH.
Qed.

Lemma set_add_all_extends keys : ∀ s s',
  set_add_all s keys = inr s' →
  ∃ extra, s' = s ++ extra ∧ ∀ k, k ∈ extra → k ∈ keys.
Proof.
  induction keys as [|k keys IH]; intros s s' Hrun.
  - exists []. cbn in Hrun. simplify_eq. by rewrite app_nil_r.
  - cbn [set_add_all] in Hrun. unfold set_add in Hrun.
    destruct (py_hashable k); [|done].
    destruct (set_contains s k).
    + destruct (IH _ _ Hrun) as (extra & -> & Hin). exists extra.
      split; [done|]. intros k' Hk'. right. by apply Hin.
    + destruct (IH _ _ Hrun) as (extra & -> & Hin). exists (k :: extra).
      split; [by rewrite <- app_assoc|].
      intros k' [->|Hk']%elem_of_cons; [left|right; by apply Hin].
Qed.

Lemma set_contains_app s t k :
  set_contains (s ++ t) k = set_contains s k || set_contains t k.
Proof. apply existsb_app. Qed.

Lemma set_contains_filter (keep : bool) s t k :
  set_contains (filter (λ k', set_contains t k' = keep) s) k
  = set_contains s k && bool_decide (set_contains t k = keep).
Proof.
  apply eq_true_iff_eq.
  rewrite andb_true_iff, bool_decide_eq_true, !set_contains_spec. split.
  - intros (x & [Hkeep Hx]%list_elem_of_filter & Hkx). split; [by eauto|].
    by rewrite (set_contains_proper t k x).
  - intros [(x & Hx & Hkx) Hkeep]. exists x. split; [|done].
    apply list_elem_of_filter. split; [|done].
    by rewrite <- (set_contains_proper t k x).
Qed.

Lemma encrypt_to_set_contains object s k :
  encrypt_to_set object = inr s →
  set_contains s k = set_contains (canonical_keys object) k.
Proof.
  intros (Hfrom & Hall & _)%encrypt_to_set_spec.
  apply eq_true_iff_eq. rewrite (set_contains_spec (canonical_keys object)).
  split.
  - intros (x & Hx & Hkx)%set_contains_spec.
    destruct (Hfrom x Hx) as (a & Ha & ->). exists (encrypt_hashify a).
    split; [|done]. unfold canonical_keys. apply list_elem_of_fmap. eauto.
  - intros (x & Hx & Hkx). unfold canonical_keys in Hx.
    apply list_elem_of_fmap in Hx as (a & -> & Ha).
    rewrite (set_contains_proper s k (encrypt_hashify a)) by done. by apply Hall.
Qed.

(** X20.  When [|], [&] and [^] return, an object is in the union when it
    equals a canonical key of either side, in the intersection when it equals
    one of both, and in the symmetric difference when it equals one of
    exactly one side. *)
Theorem set_operators_membership (self : circulis) (other : operand)
    (union intersection symmetric : list value) (k : value) :
  __or__ self other = inr union →
  __and__ self other = inr intersection →
  __xor__ self other = inr symmetric →
  let in_self := set_contains (canonical_keys (circulist self)) k in
  let in_other := set_contains (canonical_keys (elements other)) k in
  set_contains union k = in_self || in_other
  ∧ set_contains intersection k = in_self && in_other
  ∧ set_contains symmetric k = xorb in_self in_other.
Proof.
  unfold __or__, __and__, __xor__, set_operation.
  destruct (encrypt_list_check other); [done|].
  destruct (encrypt_to_set (circulist self)) as [|first] eqn:Hfirst; [done|].
  destruct (encrypt_to_set (elements other)) as [|second] eqn:Hsecond; [done|].
  intros [= <-] [= <-] [= <-]. cbn zeta.
  rewrite <- !(encrypt_to_set_contains _ _ k Hfirst).
  rewrite <- !(encrypt_to_set_contains _ _ k Hsecond).
  unfold set_union, set_intersection, set_symmetric_difference.
  rewrite !set_contains_app, !set_contains_filter.
  destruct (set_contains first k), (set_contains second k); done.
Qed.

Lemma set_operators_membership_witness :
  let self := new_circulis [VInt 1; VList [VInt 2]; VInt 3] in
  let other := OValue (VTuple [VTuple [VInt 2]; VInt 4]) in
  __or__ self other = inr [VInt 1; VTuple [VInt 2]; VInt 3; VInt 4]
  ∧ set_contains [VInt 1; VTuple [VInt 2]; VInt 3; VInt 4] (VInt 4) = true
  ∧ set_contains [VTuple [VInt 2]] (VInt 4) = false
  ∧ set_contains [VInt 1; VInt 3; VInt 4] (VInt 4) = true.
Proof.
  split; [done|].
  apply (set_operators_membership
           (new_circulis [VInt 1; VList [VInt 2]; VInt 3])
           (OValue (VTuple [VTuple [VInt 2]; VInt 4]))
           [VInt 1; VTuple [VInt 2]; VInt 3; VInt 4]
           [VTuple [VInt 2]]
           [VInt 1; VInt 3; VInt 4]
           (VInt 4)); reflexivity.
Defined.

Lemma difference_after_sum (self : circulis) (other : operand) :
  match __add__ self other with
  | inr both => __sub__ both other = __sub__ self other
  | inl e => __sub__ self other = inl e
  end.
Proof.
  unfold __add__, __sub__.
  destruct (encrypt_list_check other) as [e|[]]; [done|].
  cbn [circulist new_circulis].
  unfold encrypt_to_set. rewrite fmap_app, set_add_all_app.
  destruct (set_add_all [] (encrypt_hashify <$> circulist self))
    as [e|first] eqn:Hfirst; [done|].
  destruct (set_add_all first (encrypt_hashify <$> elements other))
    as [e|first'] eqn:Hboth.
  - by rewrite (set_add_all_fails _ _ [] _ Hboth).
  - destruct (set_add_all [] (encrypt_hashify <$> elements other))
      as [e|second] eqn:Hsecond.
    + by rewrite (set_add_all_fails _ _ first _ Hsecond) in Hboth.
    + apply set_add_all_extends in Hboth as (extra & -> & Hextra).
      apply set_add_all_spec in Hsecond as (_ & Hall & _).
      do 2 f_equal. unfold set_difference. rewrite filter_app.
      rewrite <- (app_nil_r (filter _ first)) at 2. f_equal.
      induction extra as [|k extra IH]; [done|].
      rewrite filter_cons, decide_False.
      * apply IH. intros k' Hk'. apply Hextra. by right.
      * rewrite Hall; [done|]. right. apply Hextra. by left.
Qed.

(** X21.  Taking [other] away after adding it is taking it away at once:
    [(self + other) - other] and [self - other] hold the same elements, in
    whatever order the two sets are listed, or fail alike. *)
Theorem add_then_sub (self : circulis) (other : operand) :
  match __add__ self other with
  | inr both =>
      match __sub__ both other, __sub__ self other with
      | inr after, inr direct => circulist after ≡ₚ circulist direct
      | inl e, inl e' => e = e'
      | _, _ => False
      end
  | inl e => __sub__ self other = inl e
  end.
Proof.
  pose proof (difference_after_sum self other) as Hsame.
  destruct (__add__ self other) as [e|both]; [done|].
  rewrite Hsame. by destruct (__sub__ self other).
Qed.

End OperatorsFacts.

Module StatisticsFacts.
Import BulkMutation Operators Statistics.

Example stride_examples :
  stride (new_circulis (ints [10; 20; 30]%Z)) = inr (ints [10; 10]%Z)
  ∧ stride (new_circulis (ints [3; 1; 4; 1]%Z)) = inr (ints [-2; 3; -3]%Z)
  ∧ stride (new_circulis (ints [3]%Z)) = inl ValueError
  ∧ stride (new_circulis [VInt 1; VBool true]) = inl ValueError.
Proof. repeat split. Qed.







End StatisticsFacts.

Module GroupingFacts.
Import SetAlgebra Grouping SetAlgebraFacts.

Example grouping_examples :
  let parity v :=
    match v with VInt z => inr (VInt (z mod 2)) | _ => inr VNone end in
  convene parity (new_circulis (ints [1; 2; 3; 4; 5; 6]%Z))
  = inr [(VInt 1, ints [1; 3; 5]%Z); (VInt 0, ints [2; 4; 6]%Z)]
  ∧ convene parity (new_circulis [VInt 1; VStr "x"]) = inl ValueError
  ∧ dominant (new_circulis (ints [1; 2; 2; 3; 3; 3]%Z)) = inr (VInt 3, 3)
  ∧ dominant (new_circulis (ints [1; 2; 2; 1]%Z)) = inr (VInt 1, 2)
  ∧ dominant (new_circulis [VBool true; VInt 1; VInt 0]) = inr (VBool true, 2)
  ∧ dominant (new_circulis []) = inl ValueError
  ∧ dominant (new_circulis [VList []]) = inl TypeError.
Proof. repeat split. Qed.

(** **** Dictionaries *)

Lemma py_eqb_proper x k k' : py_eqb k k' = true → py_eqb x k = py_eqb x k'.
Proof.
  intros Heq. apply eq_true_iff_eq. split; intros Hx.
  - by eapply py_eqb_trans.
  - eapply py_eqb_trans; [done|]. by rewrite py_eqb_sym.
Qed.

Lemma dict_get_proper {A} (d : list (value * A)) k k' :
  py_eqb k k' = true → dict_get d k = dict_get d k'.
Proof.
  intros Heq. induction d as [|[k0 a0] d IH]; [done|]. cbn.
  by rewrite (py_eqb_proper k0 k k'), IH.
Qed.

Lemma dict_get_set {A} (d : list (value * A)) k a key :
  dict_get (dict_set d k a) key
  = if py_eqb k key then Some a else dict_get d key.
Proof.
  induction d as [|[k0 a0] d IH]; [done|]. cbn.
  destruct (py_eqb k0 k) eqn:Hk0; cbn.
  - rewrite (py_eqb_sym k0 key), (py_eqb_sym k key).
    rewrite (py_eqb_proper key k0 k Hk0). by destruct (py_eqb key k).
  - rewrite IH. destruct (py_eqb k0 key) eqn:Hkey; [|done].
    destruct (py_eqb k key) eqn:Hk; [|done].
    rewrite (py_eqb_proper k0 k key Hk) in Hk0. congruence.
Qed.

Lemma dict_get_None {A} (d : list (value * A)) k :
  dict_get d k = None ↔ set_contains d.*1 k = false.
Proof.
  induction d as [|[k0 a0] d IH]; [done|]. cbn.
  rewrite (py_eqb_sym k k0). destruct (py_eqb k0 k); [done|]. apply IH.
Qed.

Lemma dict_set_keys {A} (d : list (value * A)) k a :
  (dict_set d k a).*1
  = match dict_get d k with Some _ => d.*1 | None => d.*1 ++ [k] end.
Proof.
  induction d as [|[k0 a0] d IH]; [done|]. cbn.
  destruct (py_eqb k0 k); [done|]. cbn. rewrite IH.
  by destruct (dict_get d k).
Qed.

Lemma dict_get_elem {A} (d : list (value * A)) k a :
  dict_get d k = Some a → ∃ key, (key, a) ∈ d ∧ py_eqb key k = true.
Proof.
  induction d as [|[k0 a0] d IH]; [done|]. cbn.
  destruct (py_eqb k0 k) eqn:Hk0.
  - intros [= ->]. exists k0. split; [by left|done].
  - intros (key & Hin & Hkey)%IH. exists key. split; [by right|done].
Qed.

Lemma dict_elem_get {A} (d : list (value * A)) key a :
  distinct d.*1 → (key, a) ∈ d → dict_get d key = Some a.
Proof.
  induction d as [|[k0 a0] d IH]; intros Hd Hin.
  - by apply not_elem_of_nil in Hin.
  - cbn in Hd. destruct Hd as [Hk0 Hd]. cbn.
    apply elem_of_cons in Hin as [[= -> ->]|Hin].
    + by rewrite py_eqb_refl.
    + rewrite (proj1 (set_contains_false _ _) Hk0 key); [by apply IH|].
      apply list_elem_of_fmap. by exists (key, a).
Qed.

Lemma firsts_snoc d x :
  firsts (d ++ [x])
  = if set_contains (firsts d) x then firsts d else firsts d ++ [x].
Proof. unfold firsts. by rewrite foldl_app. Qed.

Lemma firsts_complete d y : y ∈ d → set_contains (firsts d) y = true.
Proof.
  induction d as [|x d IH] using rev_ind; [by intros ?%not_elem_of_nil|].
  rewrite firsts_snoc. intros [Hy| ->%list_elem_of_singleton]%elem_of_app.
  - destruct (set_contains (firsts d) x); [by apply IH|].
    unfold set_contains in *. rewrite existsb_app, IH; done.
  - destruct (set_contains (firsts d) x) eqn:Hx; [done|].
    unfold set_contains. rewrite existsb_app. cbn.
    by rewrite py_eqb_refl, orb_true_r.
Qed.

Lemma firsts_split d : ∀ before x after,
  firsts d = before ++ x :: after →
  ∃ pre post, d = pre ++ x :: post
              ∧ ∀ y, y ∈ pre → set_contains before y = true.
Proof.
  induction d as [|z d IH] using rev_ind; intros before x after Hsplit.
  - by destruct before.
  - rewrite firsts_snoc in Hsplit.
    destruct (set_contains (firsts d) z) eqn:Hz.
    + destruct (IH _ _ _ Hsplit) as (pre & post & -> & Hpre).
      exists pre, (post ++ [z]). split; [|done]. by rewrite <- app_assoc.
    + destruct after as [|a after _] using rev_ind.
      * apply app_inj_tail in Hsplit as [<- <-].
        exists d, []. split; [done|]. apply firsts_complete.
      * rewrite app_comm_cons, app_assoc in Hsplit.
        apply app_inj_tail in Hsplit as [Hsplit <-].
        destruct (IH _ _ _ Hsplit) as (pre & post & -> & Hpre).
        exists pre, (post ++ [z]). split; [|done]. by rewrite <- app_assoc.
Qed.

(** **** Grouping *)

Lemma nonempty_snoc {A} (l : list A) x : nonempty (l ++ [x]) = Some (l ++ [x]).
Proof. by destruct l. Qed.

Lemma default_nonempty {A} (l : list A) : default [] (nonempty l) = l.
Proof. by destruct l. Qed.

Lemma group_of_proper function k k' d :
  py_eqb k k' = true → group_of function k d = group_of function k' d.
Proof.
  intros Heq. unfold group_of. apply list_filter_iff. intros x.
  unfold has_key. destruct (function x) as [|kx]; [done|].
  by rewrite (py_eqb_proper kx k k').
Qed.

Lemma group_of_snoc function key d x k :
  function x = inr k →
  group_of function key (d ++ [x])
  = group_of function key d ++ (if py_eqb k key then [x] else []).
Proof.
  intros Hk. unfold group_of. rewrite filter_app. f_equal.
  assert (has_key function key x = py_eqb k key) as Hx.
  { unfold has_key. by rewrite Hk. }
  rewrite filter_cons. destruct (py_eqb k key).
  - by rewrite decide_True.
  - rewrite decide_False; [done|]. by rewrite Hx.
Qed.

Lemma convene_loop_groups function rest : ∀ done return_dict,
  Forall (usable_key function) rest →
  (∀ key, dict_get return_dict key = nonempty (group_of function key done)) →
  distinct return_dict.*1 →
  ∃ groups,
    convene_loop function rest return_dict = inr groups
    ∧ (∀ key, dict_get groups key
              = nonempty (group_of function key (done ++ rest)))
    ∧ distinct groups.*1.
Proof.
  induction rest as [|x rest IH]; intros done acc Hkeys Hget Hdistinct.
  - exists acc. rewrite app_nil_r. done.
  - apply Forall_cons in Hkeys as [(k & Hk & Hnone & Hhash) Hkeys].
    cbn [convene_loop]. rewrite Hk, Hnone, Hhash. cbn [negb]. cbn zeta.
    set (acc1 := match dict_get acc k with
                 | None => dict_set acc k []
                 | Some _ => acc
                 end).
    assert (Hget1 : ∀ key, dict_get acc1 key
              = if py_eqb k key then Some (group_of function k done)
                else dict_get acc key).
    { intros key. unfold acc1. pose proof (Hget k) as Hk'.
      destruct (dict_get acc k) as [g|] eqn:Hg.
      - destruct (py_eqb k key) eqn:Hkey; [|done].
        rewrite <- (dict_get_proper acc k key Hkey), Hg, Hk'.
        by destruct (group_of function k done).
      - rewrite dict_get_set. by destruct (group_of function k done). }
    assert (Hdistinct1 : distinct acc1.*1).
    { unfold acc1. destruct (dict_get acc k) as [g|] eqn:Hg; [done|].
      rewrite dict_set_keys, Hg. apply distinct_snoc; [done|].
      by apply dict_get_None. }
    rewrite (Hget1 k), py_eqb_refl. cbn [default].
    replace (done ++ x :: rest) with ((done ++ [x]) ++ rest)
      by (by rewrite <- app_assoc).
    apply IH; [done| |].
    + intros key. rewrite dict_get_set, Hget1, (group_of_snoc _ _ _ _ k Hk).
      destruct (py_eqb k key) eqn:Hkey.
      * by rewrite (group_of_proper function k key done Hkey), nonempty_snoc.
      * by rewrite app_nil_r.
    + by rewrite dict_set_keys, (Hget1 k), py_eqb_refl.
Qed.

(** X23.  When [function] gives every element a hashable key other than
    [None], [convene] returns distinct keys whose groups part the elements:
    each group is not empty and holds, in their order, exactly the elements
    whose key equals the group's, and every element is in a group. *)
Theorem convene_partitions (function : value → exn + value) (self : circulis) :
  Forall (usable_key function) (circulist self) →
  ∃ groups,
    convene function self = inr groups
    ∧ (∀ key group, (key, group) ∈ groups →
         group ≠ []
         ∧ group = filter (λ x, has_key function key x = true) (circulist self))
    ∧ (∀ x, x ∈ circulist self →
         ∃ key group, (key, group) ∈ groups ∧ x ∈ group)
    ∧ distinct groups.*1.
Proof.
  intros Hkeys.
  destruct (convene_loop_groups function (circulist self) [] [] Hkeys)
    as (groups & Hrun & Hget & Hdistinct); [done|done|].
  cbn [app] in Hget. exists groups. split; [done|]. split; [|split; [|done]].
  - intros key group Hin.
    pose proof (dict_elem_get groups key group Hdistinct Hin) as Hgroup.
    rewrite Hget in Hgroup. fold (group_of function key (circulist self)).
    destruct (group_of function key (circulist self)); [done|].
    cbn in Hgroup. by simplify_eq.
  - intros x Hx.
    apply (proj1 (Forall_forall _ _) Hkeys) in Hx as Hkey.
    destruct Hkey as (k & Hk & _).
    assert (x ∈ group_of function k (circulist self)) as Hin.
    { apply list_elem_of_filter. split; [|done].
      unfold has_key. by rewrite Hk, py_eqb_refl. }
    pose proof (Hget k) as Hgroup.
    destruct (group_of function k (circulist self)) as [|y g] eqn:Hg.
    { by apply not_elem_of_nil in Hin. }
    apply dict_get_elem in Hgroup as (key & Hentry & _). eauto.
Qed.

Lemma convene_partitions_witness :
  let parity v :=
    match v with VInt z => inr (VInt (z mod 2)) | _ => inr VNone end in
  ∃ groups,
    convene parity (new_circulis (ints [1; 2; 3; 4; 5; 6]%Z)) = inr groups
    ∧ (∀ key group, (key, group) ∈ groups →
         group ≠ []
         ∧ group = filter (λ x, has_key parity key x = true)
                     (ints [1; 2; 3; 4; 5; 6]%Z))
    ∧ (∀ x, x ∈ ints [1; 2; 3; 4; 5; 6]%Z →
         ∃ key group, (key, group) ∈ groups ∧ x ∈ group)
    ∧ distinct groups.*1.
Proof.
  apply (convene_partitions
           (λ v, match v with VInt z => inr (VInt (z mod 2)) | _ => inr VNone end)
           (new_circulis (ints [1; 2; 3; 4; 5; 6]%Z))).
  repeat constructor; by eexists.
Defined.

Lemma convene_loop_app function pre : ∀ rest return_dict,
  convene_loop function (pre ++ rest) return_dict
  = match convene_loop function pre return_dict with
    | inl e => inl e
    | inr return_dict' => convene_loop function rest return_dict'
    end.
Proof.
  induction pre as [|x pre IH]; intros rest acc; [done|].
  cbn [app convene_loop]. destruct (function x) as [|k]; [done|].
  destruct (is_none k); [done|]. destruct (negb (py_hashable k)); [done|].
  apply IH.
Qed.

(** X24.  [convene] raises a [ValueError] at the first element whose key is
    [None], whatever it has grouped before and whatever follows. *)
Theorem convene_rejects_None (function : value → exn + value) (self : circulis)
    (pre post : list value) (x : value) :
  circulist self = pre ++ x :: post →
  Forall (usable_key function) pre →
  function x = inr VNone →
  convene function self = inl ValueError.
Proof.
  intros Hself Hpre Hx. unfold convene. rewrite Hself, convene_loop_app.
  destruct (convene_loop_groups function pre [] [] Hpre)
    as (groups & -> & _); [done|done|].
  cbn [convene_loop]. by rewrite Hx.
Qed.

Lemma convene_rejects_None_witness :
  let key v := match v with VInt z => inr (VInt (z mod 2)) | _ => inr VNone end in
  convene key (new_circulis [VInt 1; VInt 2; VStr "x"; VInt 3]) = inl ValueError.
Proof.
  apply (convene_rejects_None
           (λ v, match v with VInt z => inr (VInt (z mod 2)) | _ => inr VNone end)
           (new_circulis [VInt 1; VInt 2; VStr "x"; VInt 3])
           [VInt 1; VInt 2] [VInt 3] (VStr "x")).
  - reflexivity.
  - repeat constructor; by eexists.
  - reflexivity.
Defined.

(** **** The most frequent element *)

Lemma occurrences_proper k k' d :
  py_eqb k k' = true → occurrences k d = occurrences k' d.
Proof.
  intros Heq. unfold occurrences. f_equal. apply list_filter_iff. intros x.
  by rewrite (py_eqb_proper x k k').
Qed.

Lemma occurrences_snoc key d x :
  occurrences key (d ++ [x])
  = occurrences key d + (if py_eqb x key then 1 else 0).
Proof.
  unfold occurrences. rewrite filter_app, length_app. f_equal.
  rewrite filter_cons. destruct (py_eqb x key).
  - by rewrite decide_True.
  - by rewrite decide_False.
Qed.

Lemma default_positive n : default 0 (positive n) = n.
Proof. by destruct n. Qed.

Lemma Counter_counts rest : ∀ done counts,
  Forall (λ x, py_hashable x = true) rest →
  (∀ key, dict_get counts key = positive (occurrences key done)) →
  counts.*1 = firsts done →
  distinct counts.*1 →
  ∃ result,
    Counter rest counts = inr result
    ∧ (∀ key, dict_get result key = positive (occurrences key (done ++ rest)))
    ∧ result.*1 = firsts (done ++ rest)
    ∧ distinct result.*1.
Proof.
  induction rest as [|x rest IH]; intros done counts Hhash Hget Hkeys Hdistinct.
  - exists counts. rewrite app_nil_r. done.
  - apply Forall_cons in Hhash as [Hx Hhash]. cbn [Counter]. rewrite Hx.
    replace (done ++ x :: rest) with ((done ++ [x]) ++ rest)
      by (by rewrite <- app_assoc).
    assert (Hfresh : dict_get counts x = None
                     ↔ set_contains (firsts done) x = false).
    { rewrite <- Hkeys. apply dict_get_None. }
    apply IH; [done| | |].
    + intros key. rewrite dict_get_set, (Hget x), default_positive.
      rewrite occurrences_snoc. destruct (py_eqb x key) eqn:Hkey.
      * rewrite (occurrences_proper x key done Hkey).
        by destruct (occurrences key done).
      * by rewrite Hget, Nat.add_0_r.
    + rewrite dict_set_keys, firsts_snoc, Hkeys.
      destruct (set_contains (firsts done) x) eqn:Hin.
      * destruct (dict_get counts x) eqn:Hcount; [done|].
        by pose proof (proj1 Hfresh eq_refl).
      * by rewrite (proj2 Hfresh eq_refl).
    + rewrite dict_set_keys. destruct (dict_get counts x) eqn:Hcount; [done|].
      apply distinct_snoc; [done|]. by apply dict_get_None.
Qed.

Lemma max_by_count_first items : ∀ pre best mid,
  (∀ it, it ∈ pre → it.2 < best.2) →
  (∀ it, it ∈ mid → it.2 ≤ best.2) →
  ∃ c1 c2,
    pre ++ best :: mid ++ items = c1 ++ max_by_count best items :: c2
    ∧ (∀ it, it ∈ c1 → it.2 < (max_by_count best items).2)
    ∧ (∀ it, it ∈ c2 → it.2 ≤ (max_by_count best items).2).
Proof.
  induction items as [|item items IH]; intros pre best mid Hpre Hmid.
  - exists pre, mid. by rewrite app_nil_r.
  - cbn [max_by_count]. destruct (best.2 <? item.2) eqn:Hlt.
    + apply Nat.ltb_lt in Hlt.
      destruct (IH (pre ++ best :: mid) item []) as (c1 & c2 & Heq & Hc).
      { intros it [Hin|[->|Hin]%elem_of_cons]%elem_of_app.
        - specialize (Hpre it Hin). lia.
        - done.
        - specialize (Hmid it Hin). lia. }
      { by intros it ?%not_elem_of_nil. }
      exists c1, c2. split; [|done]. rewrite <- Heq. by rewrite <- app_assoc.
    + apply Nat.ltb_ge in Hlt.
      destruct (IH pre best (mid ++ [item])) as (c1 & c2 & Heq & Hc); [done| |].
      { intros it [Hin| ->%list_elem_of_singleton]%elem_of_app; [|done].
        by apply Hmid. }
      exists c1, c2. split; [|done]. rewrite <- Heq. by rewrite <- app_assoc.
Qed.

(** X25.  For hashable elements [dominant] returns the first element whose
    number of occurrences is the highest, with that number: no element occurs
    more often, and every element before it occurs less often. *)
Theorem dominant_is_first_most_frequent (self : circulis) :
  circulist self ≠ [] →
  Forall (λ x, py_hashable x = true) (circulist self) →
  ∃ x c pre post,
    dominant self = inr (x, c)
    ∧ circulist self = pre ++ x :: post
    ∧ c = occurrences x (circulist self)
    ∧ (∀ y, occurrences y (circulist self) ≤ c)
    ∧ (∀ y, y ∈ pre → occurrences y (circulist self) < c).
Proof.
  intros Hnonempty Hhash.
  destruct (Counter_counts (circulist self) [] [] Hhash)
    as (result & Hrun & Hget & Hkeys & Hdistinct); [done|done|done|].
  cbn [app] in Hget, Hkeys.
  unfold dominant, encrypt_is_empty. rewrite Hrun.
  destruct (circulist self) as [|x0 d] eqn:Hd; [done|]. rewrite <- Hd in *.
  assert (Hentry : ∀ key count,
            (key, count) ∈ result → count = occurrences key (circulist self)).
  { intros key count Hin.
    pose proof (dict_elem_get result key count Hdistinct Hin) as Hcount.
    rewrite Hget in Hcount. destruct (occurrences key (circulist self)); [done|].
    cbn in Hcount. by simplify_eq. }
  destruct result as [|first rest].
  { pose proof (Hget x0) as Hx0. rewrite Hd in Hx0. unfold occurrences in Hx0.
    rewrite filter_cons, decide_True in Hx0 by apply py_eqb_refl. done. }
  cbn [most_common_1].
  destruct (max_by_count_first rest [] first []) as (c1 & c2 & Hsplit & Hc1 & Hc2).
  { by intros it ?%not_elem_of_nil. }
  { by intros it ?%not_elem_of_nil. }
  cbn [app] in Hsplit. rewrite Hsplit in *.
  destruct (max_by_count first rest) as [x c]. cbn [snd] in *.
  rewrite fmap_app, fmap_cons in Hkeys. cbn [fst] in Hkeys. symmetry in Hkeys.
  destruct (firsts_split _ _ _ _ Hkeys) as (pre & post & Hpre & Hbefore).
  exists x, c, pre, post. split; [done|]. split; [done|].
  split; [|split].
  - apply Hentry, elem_of_app. right. by left.
  - intros y. destruct (occurrences y (circulist self)) as [|n] eqn:Hy; [lia|].
    pose proof (Hget y) as Hcount. rewrite Hy in Hcount.
    apply dict_get_elem in Hcount as (key & Hin & _).
    apply elem_of_app in Hin as [Hin|[[= _ ->]|Hin]%elem_of_cons].
    + specialize (Hc1 _ Hin). cbn in Hc1. lia.
    + lia.
    + specialize (Hc2 _ Hin). cbn in Hc2. lia.
  - intros y Hy. apply Hbefore in Hy.
    apply set_contains_spec in Hy as (key & Hkey & Heq).
    apply list_elem_of_fmap in Hkey as ([key' count] & -> & Hin). cbn in Heq.
    specialize (Hc1 _ Hin). cbn in Hc1.
    rewrite (occurrences_proper y key' _ Heq).
    rewrite <- (Hentry key' count); [done|]. apply elem_of_app. by left.
Qed.

Lemma dominant_is_first_most_frequent_witness :
  ∃ x c pre post,
    dominant (new_circulis (ints [1; 2; 2; 1; 3]%Z)) = inr (x, c)
    ∧ ints [1; 2; 2; 1; 3]%Z = pre ++ x :: post
    ∧ c = occurrences x (ints [1; 2; 2; 1; 3]%Z)
    ∧ (∀ y, occurrences y (ints [1; 2; 2; 1; 3]%Z) ≤ c)
    ∧ (∀ y, y ∈ pre → occurrences y (ints [1; 2; 2; 1; 3]%Z) < c).
Proof.
  apply (dominant_is_first_most_frequent (new_circulis (ints [1; 2; 2; 1; 3]%Z))).
  - discriminate.
  - repeat constructor.
Defined.

End GroupingFacts.

Module SelectionFacts.
Import SetAlgebra SequenceOps Selection SetAlgebraFacts.

Example selection_examples :
  let even v :=
    match v with VInt z => inr (VBool (z mod 2 =? 0)%Z) | _ => inl TypeError end in
  let add a b := py_add a b in
  let self := new_circulis (ints [1; 2; 3; 4; 5]%Z) in
  filter_in_place even self = (inr (), new_circulis (ints [2; 4]%Z))
  ∧ filter_in_place even (new_circulis [VInt 2; VNone]) 
    = (inl TypeError, new_circulis [VInt 2; VNone])
  ∧ synergy 2 (OValue (VList (ints [4; 5; 6]%Z))) add
      (new_circulis (ints [1; 2; 3]%Z)) = inr (ints [5; 7; 9]%Z)
  ∧ synergy 2 (OValue (VInt 4)) add (new_circulis []) = inr []
  ∧ __isub__ (OValue (VList (ints [7; 2; 4]%Z))) self
    = (inl RuntimeError, new_circulis (ints [1; 3; 4; 5]%Z))
  ∧ __isub__ (OValue (VList (ints [7; 8]%Z))) self = (inr (), self).
Proof. repeat split. Qed.

(** **** filter *)

Lemma keep_if_returns func d :
  Forall (λ x, ∃ v, func x = inr v) d →
  keep_if func d = inr (filter (λ x, passes func x = true) d).
Proof.
  induction 1 as [|x d [v Hv] _ IH]; [done|].
  cbn [keep_if]. rewrite Hv, IH, filter_cons.
  assert (passes func x = py_truth v) as Hx by (unfold passes; by rewrite Hv).
  destruct (py_truth v).
  - by rewrite decide_True.
  - rewrite decide_False; [done|]. by rewrite Hx.
Qed.

(** X26.  When [func] returns for every element, [filter(func)] keeps, in
    place and in order, exactly the elements for which it returns something
    true, and filtering once more with the same [func] changes nothing. *)
Theorem filter_keeps_passing (func : value → exn + value) (self : circulis) :
  Forall (λ x, ∃ v, func x = inr v) (circulist self) →
  ∃ self',
    filter_in_place func self = (inr (), self')
    ∧ circulist self' = filter (λ x, passes func x = true) (circulist self)
    ∧ name self' = name self
    ∧ filter_in_place func self' = (inr (), self').
Proof.
  intros Hfunc. destruct self as [d nm]. cbn [circulist] in *.
  assert (Hkept : Forall (λ x, ∃ v, func x = inr v)
                    (filter (λ x, passes func x = true) d)).
  { apply Forall_forall. intros x [_ Hx]%list_elem_of_filter.
    by apply (proj1 (Forall_forall _ _) Hfunc). }
  assert (Hagain : filter (λ x, passes func x = true)
                     (filter (λ x, passes func x = true) d)
                   = filter (λ x, passes func x = true) d).
  { apply SequenceOpsFacts.filter_all_pass, Forall_forall.
    by intros x [Hx _]%list_elem_of_filter. }
  exists (Circulis (filter (λ x, passes func x = true) d) nm).
  unfold filter_in_place, encrypt_is_empty. cbn [circulist set_circulist name].
  rewrite (keep_if_returns func _ Hkept), Hagain.
  rewrite (keep_if_returns func d Hfunc).
  destruct d as [|x d]; [done|].
  repeat split. by destruct (filter _ (x :: d)).
Qed.

Lemma filter_keeps_passing_witness :
  let even v :=
    match v with VInt z => inr (VBool (z mod 2 =? 0)%Z) | _ => inl TypeError end in
  ∃ self',
    filter_in_place even (new_circulis (ints [1; 2; 3; 4; 5]%Z)) = (inr (), self')
    ∧ circulist self' = filter (λ x, passes even x = true) (ints [1; 2; 3; 4; 5]%Z)
    ∧ name self' = anonymous
    ∧ filter_in_place even self' = (inr (), self').
Proof.
  apply (filter_keeps_passing
           (λ v, match v with
                 | VInt z => inr (VBool (z mod 2 =? 0)%Z)
                 | _ => inl TypeError
                 end)
           (new_circulis (ints [1; 2; 3; 4; 5]%Z))).
  repeat constructor; by eexists.
Defined.

(** **** synergy *)

Lemma zipped_comprehension_returns function (g : value → value → value) l :
  ∀ m, (∀ a b, function a b = inr (g a b)) →
  zipped_comprehension function l m = inr (zip_with g l m).
Proof.
  induction l as [|a l IH]; intros [|b m] Hg; try done.
  cbn [zipped_comprehension]. rewrite Hg, IH by done. done.
Qed.

(** X27.  On an empty container [synergy] returns the empty list before it
    looks at its arguments.  On any other, with a list-like operand and a
    function of two parameters that returns, it applies the function to the
    elements pair by pair and stops at the end of the shorter side. *)
Theorem synergy_zips_to_shorter (parameters : nat) (other_list : operand)
    (function : value → value → exn + value) (g : value → value → value)
    (self : circulis) :
  (∀ a b, function a b = inr (g a b)) →
  encrypt_list_check other_list = inr () →
  (circulist self = [] →
   ∀ anything function', synergy parameters anything function' self = inr [])
  ∧ (circulist self ≠ [] →
     ∃ result,
       synergy 2 other_list function self = inr result
       ∧ length result
         = length (circulist self) `min` length (elements other_list)
       ∧ ∀ i a b, circulist self !! i = Some a →
           elements other_list !! i = Some b → result !! i = Some (g a b)).
Proof.
  intros Hg Hcheck. unfold synergy, encrypt_is_empty. split.
  - by intros -> ? ?.
  - intros Hne. destruct (circulist self) as [|x d] eqn:Hd; [done|].
    rewrite Hcheck. cbn [Nat.eqb negb].
    rewrite (zipped_comprehension_returns function g _ _ Hg). eexists. split; [done|].
    split; [apply length_zip_with|].
    intros i a b Ha Hb. by rewrite lookup_zip_with, Ha, Hb.
Qed.

Lemma synergy_zips_to_shorter_witness :
  let add a b := inr (VList [a; b]) in
  ∃ result,
    synergy 2 (OValue (VTuple (ints [4; 5]%Z))) add
      (new_circulis (ints [1; 2; 3]%Z)) = inr result
    ∧ length result = 2
    ∧ ∀ i a b, ints [1; 2; 3]%Z !! i = Some a → ints [4; 5]%Z !! i = Some b →
        result !! i = Some (VList [a; b]).
Proof.
  apply (synergy_zips_to_shorter 2 (OValue (VTuple (ints [4; 5]%Z)))
           (λ a b, inr (VList [a; b])) (λ a b, VList [a; b])
           (new_circulis (ints [1; 2; 3]%Z))); [done|done|discriminate].
Defined.

(** **** In-place subtraction *)

Lemma first_equal_None values d :
  first_equal values d = None ↔ ∀ x, x ∈ d → py_eqb values x = false.
Proof.
  unfold first_equal. induction d as [|y d IH]; cbn.
  - split; [|done]. by intros _ x ?%not_elem_of_nil.
  - destruct (py_eqb values y) eqn:Hy.
    + split; [done|]. intros Hall. rewrite Hall in Hy; [done|by left].
    + rewrite IH. split.
      * intros Hall x [->|Hx]%elem_of_cons; [done|by apply Hall].
      * intros Hall x Hx. apply Hall. by right.
Qed.

Lemma first_equal_Some values d items :
  first_equal values d = Some items → items ∈ d ∧ py_eqb values items = true.
Proof.
  unfold first_equal. intros [Hin Heq]%find_some. split; [|done].
  by apply list_elem_of_In.
Qed.

Lemma isub_loop_outcome other : ∀ self,
  match (isub_loop other self).1 with
  | inr _ =>
      (isub_loop other self).2 = self
      ∧ ∀ v x, v ∈ other → x ∈ circulist self → py_eqb v x = false
  | inl RuntimeError =>
      ∃ pre x post v,
        circulist self = pre ++ x :: post
        ∧ (isub_loop other self).2 = set_circulist self (pre ++ post)
        ∧ v ∈ other ∧ py_eqb v x = true
  | inl (Checked _) => False
  end.
Proof.
  induction other as [|values rest IH]; intros self.
  - cbn. split; [done|]. by intros v x ?%not_elem_of_nil.
  - cbn [isub_loop].
    destruct (first_equal values (circulist self)) as [items|] eqn:Hfirst.
    + apply first_equal_Some in Hfirst as [Hin Heq].
      destruct (deque_remove items (circulist self)) as [d|] eqn:Hremove.
      * cbn [fst snd].
        apply SequenceOpsFacts.deque_remove_Some in Hremove
          as (pre & x & post & Hd & Hx & _ & ->).
        exists pre, x, post, values. split; [done|]. split; [done|].
        split; [by left|]. eapply py_eqb_trans; [done|]. by rewrite py_eqb_sym.
      * apply SequenceOpsFacts.deque_remove_None in Hremove.
        apply not_true_iff_false in Hremove. destruct Hremove.
        apply existsb_exists. exists items. split; [|apply py_eqb_refl].
        by apply list_elem_of_In.
    + specialize (IH self).
      destruct (isub_loop rest self).1 as [[e| ]|[]] eqn:Hrun.
      * done.
      * destruct IH as (pre & x & post & v & Hd & Hstate & Hv & Hvx).
        exists pre, x, post, v. repeat split; try done. by right.
      * destruct IH as [Hstate Hnone]. split; [done|].
        intros v x [->|Hv]%elem_of_cons Hx; [|by apply Hnone].
        by apply (proj1 (first_equal_None _ _) Hfirst).
Qed.

(** X28.  [self -= other] returns only when no element of [other] equals an
    element of [self], and then [self] is as it was.  As soon as one does,
    the element of [self] it equals is removed and the loop over the mutated
    deque raises a [RuntimeError]: a single element is gone, whatever else
    [other] holds. *)
Theorem isub_removes_at_most_one (other : operand) (self : circulis) :
  match (__isub__ other self).1 with
  | inr _ =>
      (__isub__ other self).2 = self
      ∧ ∀ v x, v ∈ elements other → x ∈ circulist self → py_eqb v x = false
  | inl RuntimeError =>
      ∃ pre x post v,
        circulist self = pre ++ x :: post
        ∧ (__isub__ other self).2 = set_circulist self (pre ++ post)
        ∧ v ∈ elements other ∧ py_eqb v x = true
  | inl (Checked e) =>
      e = TypeError ∧ encrypt_list_check other = inl TypeError
      ∧ (__isub__ other self).2 = self
  end.
Proof.
  unfold __isub__.
  destruct (encrypt_list_check other) as [e|[]] eqn:Hcheck.
  - cbn [fst snd]. destruct other as [?|?|v]; try done.
    destruct v; cbn in Hcheck; by simplify_eq.
  - pose proof (isub_loop_outcome (elements other) self) as Hloop.
    by destruct (isub_loop (elements other) self).1 as [[e| ]|[]].
Qed.

End SelectionFacts.
